(** * libcryptoplus: the cipher context adapter

    A shallow embedding of [include/cryptoplus/cipher/cipher_context.hpp].

    The class [cipher_context] wraps one native [EVP_CIPHER_CTX].  Every
    member function is a short sequence of calls into the native library,
    so a member function is embedded as a _program over native calls_: a
    finite tree whose nodes are the native calls the C++ body performs, in
    order, and whose leaves either return a value or throw.  A native library
    is an interpretation of the calls over some world state; running a
    program against a library yields the outcome, the final world and the
    trace of native calls that were made. *)

From Stdlib Require Import ZArith List Lia.
From Stdlib.Strings Require Import Byte.
From Stdlib.Strings Require Ascii String.
From stdpp Require Import base option list gmap strings pretty.

Local Open Scope Z_scope.

(** ** Data *)

Abbreviation byte := Byte.byte.

(** The address of a native [EVP_CIPHER_CTX] structure ([&m_ctx]). *)
Definition handle := positive.

(** A [const EVP_CIPHER*] that is not null: an entry of the native
    algorithm registry. *)
Definition EVP_CIPHER := N.

(** An [ENGINE*] that is not null. *)
Definition ENGINE := N.

(** [enum cipher_direction] with the values the header gives it. *)
Inductive cipher_direction : Type :=
| unchanged
| decrypt
| encrypt.

Definition direction_to_int (d : cipher_direction) : Z :=
  match d with
  | unchanged => -1
  | decrypt => 0
  | encrypt => 1
  end.

(** The error taxonomy of the specification (section 7). *)
Inductive error : Type :=
| CryptoError (code : Z)
| PaddingError
| ContractViolation.

(** [static_cast<int>] of a [size_t]: reduction to 32 bits, two's
    complement. *)
Definition size_t_to_int (n : Z) : Z := (n + 2 ^ 31) mod 2 ^ 32 - 2 ^ 31.

(** Conversion of an [int] to [size_t] (64 bits). *)
Definition int_to_size_t (n : Z) : Z := n mod 2 ^ 64.

(** [static_cast<int>] of a [bool]. *)
Definition bool_to_int (b : bool) : Z := if b then 1 else 0.

(** Conversion of an [int] to [bool]: every value but zero is true. *)
Definition int_to_bool (n : Z) : bool := negb (n =? 0).

(** The flag of [EVP_CIPHER_CTX_test_flags] that says padding is off. *)
Definition EVP_CIPH_NO_PADDING : Z := 256.

(** ** Native calls *)

(** The calls into the native library, with their arguments.  A pointer
    argument that may be null is an [option]; the [void*] slot of
    [EVP_CIPHER_CTX_ctrl] carries the bytes it points to. *)
Inductive native_call : Type :=
| EVP_CIPHER_CTX_init (ctx : handle)
| EVP_CIPHER_CTX_cleanup (ctx : handle)
| EVP_CIPHER_CTX_set_padding (ctx : handle) (pad : Z)
| EVP_CIPHER_CTX_key_length (ctx : handle)
| EVP_CIPHER_CTX_set_key_length (ctx : handle) (keylen : Z)
| EVP_CIPHER_CTX_ctrl (ctx : handle) (type arg : Z) (ptr : option (list byte))
| EVP_CIPHER_CTX_cipher (ctx : handle)
| EVP_CIPHER_CTX_encrypting (ctx : handle)
| EVP_CIPHER_CTX_test_flags (ctx : handle) (flags : Z)
| EVP_CipherInit_ex (ctx : handle) (cipher : option EVP_CIPHER)
    (impl : option ENGINE) (key iv : list byte) (enc : Z)
| EVP_CipherUpdate (ctx : handle) (inp : list byte)
| EVP_CipherFinal_ex (ctx : handle)
| ERR_get_error.

(** What each call hands back: the [int] status, together with what it
    wrote through its output pointers. *)
Definition answer (c : native_call) : Type :=
  match c with
  | EVP_CIPHER_CTX_init _ => unit
  | EVP_CIPHER_CTX_cleanup _ => Z
  | EVP_CIPHER_CTX_set_padding _ _ => Z
  | EVP_CIPHER_CTX_key_length _ => Z
  | EVP_CIPHER_CTX_set_key_length _ _ => Z
  | EVP_CIPHER_CTX_ctrl _ _ _ _ => (Z * option (list byte))%type
  | EVP_CIPHER_CTX_cipher _ => option EVP_CIPHER
  | EVP_CIPHER_CTX_encrypting _ => Z
  | EVP_CIPHER_CTX_test_flags _ _ => Z
  | EVP_CipherInit_ex _ _ _ _ _ _ => Z
  | EVP_CipherUpdate _ _ => (Z * list byte)%type
  | EVP_CipherFinal_ex _ => (Z * list byte)%type
  | ERR_get_error => Z
  end.

(** The context a call operates on; [ERR_get_error] reads the error queue
    of the library and touches no context. *)
Definition target (c : native_call) : option handle :=
  match c with
  | EVP_CIPHER_CTX_init h
  | EVP_CIPHER_CTX_cleanup h
  | EVP_CIPHER_CTX_set_padding h _
  | EVP_CIPHER_CTX_key_length h
  | EVP_CIPHER_CTX_set_key_length h _
  | EVP_CIPHER_CTX_ctrl h _ _ _
  | EVP_CIPHER_CTX_cipher h
  | EVP_CIPHER_CTX_encrypting h
  | EVP_CIPHER_CTX_test_flags h _
  | EVP_CipherInit_ex h _ _ _ _ _
  | EVP_CipherUpdate h _
  | EVP_CipherFinal_ex h => Some h
  | ERR_get_error => None
  end.

Definition is_init (c : native_call) : bool :=
  match c with EVP_CIPHER_CTX_init _ => true | _ => false end.

Definition is_cleanup (c : native_call) : bool :=
  match c with EVP_CIPHER_CTX_cleanup _ => true | _ => false end.

Definition is_final (c : native_call) : bool :=
  match c with EVP_CipherFinal_ex _ => true | _ => false end.

(** ** Programs over native calls *)

Inductive prog (R : Type) : Type :=
| Ret (r : R)
| Throw (e : error)
| Call (c : native_call) (k : answer c -> prog R).

Arguments Ret {R} r.
Arguments Throw {R} e.
Arguments Call {R} c k.

Fixpoint bind {A B : Type} (p : prog A) (f : A -> prog B) : prog B :=
  match p with
  | Ret a => f a
  | Throw e => Throw e
  | Call c k => Call c (fun x => bind (k x) f)
  end.

#[global] Instance prog_ret : MRet prog := @Ret.
#[global] Instance prog_bind : MBind prog := fun A B f p => bind p f.

(** One native call, handing back its answer. *)
Definition call (c : native_call) : prog (answer c) := Call c Ret.

(** How a program ends. *)
Inductive outcome (R : Type) : Type :=
| Returned (r : R)
| Raised (e : error).

Arguments Returned {R} r.
Arguments Raised {R} e.

Record run_result (W R : Type) : Type := RunResult {
  result_of : outcome R;
  world_of : W;
  trace_of : list native_call
}.

Arguments RunResult {W R}.
Arguments result_of {W R}.
Arguments world_of {W R}.
Arguments trace_of {W R}.

(** A native library: what every call answers and how it changes the
    world (the context structures and the error queue). *)
Definition library (W : Type) : Type := forall c : native_call, W -> answer c * W.

Fixpoint run {W R : Type} (native : library W) (p : prog R) (w : W) : run_result W R :=
  match p with
  | Ret r => RunResult (Returned r) w []
  | Throw e => RunResult (Raised e) w []
  | Call c k =>
      let (a, w') := native c w in
      let r := run native (k a) w' in
      RunResult (result_of r) (world_of r) (c :: trace_of r)
  end.

(** The number of calls in a trace that satisfy [f]. *)
Fixpoint count (f : native_call -> bool) (t : list native_call) : nat :=
  match t with
  | [] => 0%nat
  | c :: t' => ((if f c then 1 else 0) + count f t')%nat
  end.

(** ** Error signalling *)

(** Modelled from the spec: [error::throw_error] of
    [error/cryptographic_exception.hpp], which is not among the sources.
    Section 7: a [CryptoError] carries the code the native library reports;
    the adapter never makes one up. *)
Definition throw_error {R : Type} : prog R :=
  Call ERR_get_error (fun code => Throw (CryptoError code)).

(** Modelled from the spec: [error::throw_error_if_not] of
    [error/cryptographic_exception.hpp], which is not among the sources.
    It raises the pending native error when the condition fails. *)
Definition throw_error_if_not (condition : bool) : prog unit :=
  if condition then Ret tt else throw_error.

(** ** The adapter, as the header defines it *)

(** [class cipher_context]: its one data member is the native context. *)
Record cipher_context : Type := { m_ctx : handle }.

(** Modelled from the spec: [class cipher_algorithm] of
    [cipher_algorithm.hpp], which is not among the sources.  Section 3: an
    immutable descriptor resolved from the native registry; it holds the
    [const EVP_CIPHER*], which is null when nothing was resolved. *)
Record cipher_algorithm : Type := { m_cipher : option EVP_CIPHER }.

(** [cipher_context::cipher_context()] *)
Definition cipher_context_ctor (this : cipher_context) : prog unit :=
  call (EVP_CIPHER_CTX_init (m_ctx this)).

(** [cipher_context::~cipher_context()] *)
Definition cipher_context_dtor (this : cipher_context) : prog unit :=
  _ ← call (EVP_CIPHER_CTX_cleanup (m_ctx this)); Ret tt.

(** [void set_padding(bool enabled)]: the status of the native call is
    dropped. *)
Definition set_padding (this : cipher_context) (enabled : bool) : prog unit :=
  _ ← call (EVP_CIPHER_CTX_set_padding (m_ctx this) (bool_to_int enabled)); Ret tt.

(** [size_t key_length() const] *)
Definition key_length (this : cipher_context) : prog Z :=
  n ← call (EVP_CIPHER_CTX_key_length (m_ctx this)); Ret (int_to_size_t n).

(** [void set_key_length(size_t len)] *)
Definition set_key_length (this : cipher_context) (len : Z) : prog unit :=
  r ← call (EVP_CIPHER_CTX_set_key_length (m_ctx this) (size_t_to_int len));
  throw_error_if_not (int_to_bool r).

(** [template <typename T> void ctrl_get(int type, T& value)]: [value] is
    the object the reference designates, as bytes; the result is what the
    native call left in it, when the call succeeded. *)
Definition ctrl_get (this : cipher_context) (type : Z) (value : list byte)
  : prog (list byte) :=
  r ← call (EVP_CIPHER_CTX_ctrl (m_ctx this) type 0 (Some value));
  throw_error_if_not (int_to_bool r.1);;
  Ret (default value r.2).

(** [void ctrl_set(int type, int value)] *)
Definition ctrl_set (this : cipher_context) (type value : Z) : prog unit :=
  r ← call (EVP_CIPHER_CTX_ctrl (m_ctx this) type value None);
  throw_error_if_not (int_to_bool r.1).

(** [EVP_CIPHER_CTX& raw()]: the reference is the address of [m_ctx]. *)
Definition raw (this : cipher_context) : prog handle :=
  Ret (m_ctx this).

(** [cipher_algorithm algorithm() const] *)
Definition algorithm (this : cipher_context) : prog cipher_algorithm :=
  c ← call (EVP_CIPHER_CTX_cipher (m_ctx this)); Ret {| m_cipher := c |}.

(** ** The member functions the header only declares *)

(** Modelled from the spec: [cipher_context::initialize], declared in the
    header and defined in a source file that is not given.  Section 4.1: it
    binds the context to the algorithm and the direction through the native
    initialisation call and fails with [CryptoError] when that call reports
    failure. *)
Definition initialize (this : cipher_context) (algorithm : cipher_algorithm)
    (direction : cipher_direction) (key iv : list byte) (impl : option ENGINE)
  : prog unit :=
  r ← call (EVP_CipherInit_ex (m_ctx this) (m_cipher algorithm) impl key iv
              (direction_to_int direction));
  throw_error_if_not (int_to_bool r).

(** Modelled from the spec: [cipher_context::update], declared in the header
    and defined in a source file that is not given.  Section 4.1: it hands
    the input to the native update call, returns the bytes written and fails
    with [CryptoError] when the native call fails.  What section 4.1 says of
    an [update] that follows a finalisation is not part of this definition:
    the class has no member that could remember the finalisation, and
    nothing in the sources says how the body would learn of it. *)
Definition update (this : cipher_context) (inp : list byte) : prog (list byte) :=
  r ← call (EVP_CipherUpdate (m_ctx this) inp);
  throw_error_if_not (int_to_bool r.1);;
  Ret r.2.

(** Modelled from the spec: [cipher_context::finalize], declared in the
    header and defined in a source file that is not given.  Section 4.1 and
    section 7: a failing native call is a [CryptoError]; a native call that
    succeeds and writes no byte, on a context that decrypts with padding
    enabled, is a [PaddingError]; otherwise the bytes written are returned.
    The direction and the padding flag are attributes of the native context
    (section 3), read from it.  What section 4.1 says of a [finalize] that
    follows a finalisation is not part of this definition: the class has no
    member that could remember the finalisation, and nothing in the sources
    says how the body would learn of it. *)
Definition finalize (this : cipher_context) : prog (list byte) :=
  r ← call (EVP_CipherFinal_ex (m_ctx this));
  throw_error_if_not (int_to_bool r.1);;
  enc ← call (EVP_CIPHER_CTX_encrypting (m_ctx this));
  nopad ← call (EVP_CIPHER_CTX_test_flags (m_ctx this) EVP_CIPH_NO_PADDING);
  if (length r.2 =? 0)%nat && negb (int_to_bool enc) && negb (int_to_bool nopad)
  then Throw PaddingError
  else Ret r.2.

(** ** Uses of a context *)

(** One invocation of a public member function, with its arguments. *)
Inductive method : Type :=
| m_initialize (algorithm : cipher_algorithm) (direction : cipher_direction)
    (key iv : list byte) (impl : option ENGINE)
| m_set_padding (enabled : bool)
| m_key_length
| m_set_key_length (len : Z)
| m_ctrl_get (type : Z) (value : list byte)
| m_ctrl_set (type value : Z)
| m_update (inp : list byte)
| m_finalize
| m_raw
| m_algorithm.



(** The invocation as a program; the value it returns is dropped. *)
Definition invoke (this : cipher_context) (m : method) : prog unit :=
  match m with
  | m_initialize a d key iv impl => initialize this a d key iv impl
  | m_set_padding enabled => set_padding this enabled
  | m_key_length => _ ← key_length this; Ret tt
  | m_set_key_length len => set_key_length this len
  | m_ctrl_get type value => _ ← ctrl_get this type value; Ret tt
  | m_ctrl_set type value => ctrl_set this type value
  | m_update inp => _ ← update this inp; Ret tt
  | m_finalize => _ ← finalize this; Ret tt
  | m_raw => _ ← raw this; Ret tt
  | m_algorithm => _ ← algorithm this; Ret tt
  end.

(** A sequence of invocations; an exception ends it. *)
Fixpoint invoke_all (this : cipher_context) (ms : list method) : prog unit :=
  match ms with
  | [] => Ret tt
  | m :: ms' => invoke this m;; invoke_all this ms'
  end.

(** Leaving a block: [cleanup] runs when [body] returns and when it throws,
    and the outcome of [body] is the outcome of the block. *)
Fixpoint finally {R : Type} (body : prog R) (cleanup : prog unit) : prog R :=
  match body with
  | Ret r => cleanup;; Ret r
  | Throw e => cleanup;; Throw e
  | Call c k => Call c (fun a => finally (k a) cleanup)
  end.

(** A [cipher_context] with automatic storage: [{ cipher_context c; body }]. *)
Definition scoped {R : Type} (this : cipher_context) (body : prog R) : prog R :=
  cipher_context_ctor this;;
  finally body (cipher_context_dtor this).

(** Encrypting one buffer: [initialize], one [update], [finalize]; the
    result is everything that was written. *)
Definition encrypt_stream (this : cipher_context) (a : cipher_algorithm)
    (key iv plaintext : list byte) : prog (list byte) :=
  initialize this a encrypt key iv None;;
  o1 ← update this plaintext;
  o2 ← finalize this;
  Ret (o1 ++ o2).

(** Decrypting one buffer, the same way. *)
Definition decrypt_stream (this : cipher_context) (a : cipher_algorithm)
    (key iv ciphertext : list byte) : prog (list byte) :=
  initialize this a decrypt key iv None;;
  o1 ← update this ciphertext;
  o2 ← finalize this;
  Ret (o1 ++ o2).

(** Encrypt on one context, decrypt what comes out on another (or on the
    same one, armed again). *)
Definition round_trip (enc_ctx dec_ctx : cipher_context) (a : cipher_algorithm)
    (key iv plaintext : list byte) : prog (list byte) :=
  cipher_context_ctor enc_ctx;;
  cipher_context_ctor dec_ctx;;
  ciphertext ← encrypt_stream enc_ctx a key iv plaintext;
  decrypt_stream dec_ctx a key iv ciphertext.

(** Feeding the input in pieces. *)
Fixpoint update_all (this : cipher_context) (chunks : list (list byte))
  : prog (list byte) :=
  match chunks with
  | [] => Ret []
  | c :: cs => o ← update this c; os ← update_all this cs; Ret (o ++ os)
  end.

(** A stream without padding: [initialize], [set_padding(false)], the
    updates, [finalize]. *)
Definition unpadded_stream (this : cipher_context) (a : cipher_algorithm)
    (direction : cipher_direction) (key iv : list byte)
    (chunks : list (list byte)) : prog (list byte) :=
  cipher_context_ctor this;;
  initialize this a direction key iv None;;
  set_padding this false;;
  o1 ← update_all this chunks;
  o2 ← finalize this;
  Ret (o1 ++ o2).

(** ** What a program can call and raise, read off its text *)

(** Every call the program can make satisfies [P]. *)
Fixpoint calls_only {R : Type} (P : native_call -> Prop) (p : prog R) : Prop :=
  match p with
  | Ret _ | Throw _ => True
  | Call c k => P c /\ forall a, calls_only P (k a)
  end.

(** Every exception the program can throw satisfies [Q]. *)
Fixpoint throws_only {R : Type} (Q : error -> Prop) (p : prog R) : Prop :=
  match p with
  | Ret _ => True
  | Throw e => Q e
  | Call c k => forall a, throws_only Q (k a)
  end.

(** The calls of a member function: on its own context, or the error
    queue; never the initialisation or the clean-up of a context. *)
Definition member_call (this : cipher_context) (c : native_call) : Prop :=
  (target c = Some (m_ctx this) \/ target c = None)
  /\ is_init c = false /\ is_cleanup c = false.

(** The adapter raises what the error helper raises, and [PaddingError]
    from [finalize]; nothing else. *)
Definition adapter_error (e : error) : Prop :=
  (exists code, e = CryptoError code) \/ e = PaddingError.

(** ** A reference native library *)

(** Modelled from the spec: the native cryptographic library of section 6,
    which is external to the repository.  It provides what that section
    requires: a registry of algorithm descriptors (key length, IV length,
    block size, fixed or variable key length), contexts that are initialised,
    bound, fed and finalised, PKCS padding that is applied when encrypting and
    validated and removed when decrypting (glossary), key lengths that only a
    variable-length algorithm lets one change, and a queue of error codes.
    The block transformation of an algorithm is a parameter of its
    descriptor. *)
Module Native.

(** An algorithm descriptor.  [enc_block key chain block] transforms one
    block and yields the next chaining value; [dec_block] undoes it. *)
Record cipher_desc : Type := {
  block_size : nat;
  key_len : nat;
  iv_len : nat;
  variable_key : bool;
  key_len_ok : nat -> bool;
  enc_block : list byte -> list byte -> list byte -> list byte * list byte;
  dec_block : list byte -> list byte -> list byte -> list byte * list byte
}.

(** The native context structure. *)
Record evp_cipher_ctx : Type := {
  ctx_cipher : option EVP_CIPHER;
  ctx_encrypt : bool;
  ctx_no_padding : bool;
  ctx_key_len : nat;
  ctx_key : list byte;
  ctx_iv : list byte;
  ctx_buf : list byte;
  ctx_final : option (list byte)
}.

(** The contexts that exist, by address, and the pending error codes,
    oldest first. *)
Record world : Type := {
  contexts : gmap handle evp_cipher_ctx;
  errors : list Z
}.

Definition EVP_R_BAD_DECRYPT : Z := 100.
Definition EVP_R_WRONG_FINAL_BLOCK_LENGTH : Z := 109.
Definition EVP_R_INVALID_KEY_LENGTH : Z := 130.
Definition EVP_R_NO_CIPHER_SET : Z := 131.
Definition EVP_R_CTRL_NOT_IMPLEMENTED : Z := 132.
Definition EVP_R_DATA_NOT_MULTIPLE_OF_BLOCK_LENGTH : Z := 138.
Definition EVP_R_INVALID_IV_LENGTH : Z := 194.

(** A context as [EVP_CIPHER_CTX_init] leaves it: all zero. *)
Definition blank : evp_cipher_ctx :=
  {| ctx_cipher := None; ctx_encrypt := false; ctx_no_padding := false;
     ctx_key_len := 0; ctx_key := []; ctx_iv := []; ctx_buf := [];
     ctx_final := None |}.

Definition put (w : world) (h : handle) (c : evp_cipher_ctx) : world :=
  {| contexts := <[h := c]> (contexts w); errors := errors w |}.

Definition push_error (w : world) (code : Z) : world :=
  {| contexts := contexts w; errors := errors w ++ [code] |}.

Definition set_no_padding (c : evp_cipher_ctx) (b : bool) : evp_cipher_ctx :=
  {| ctx_cipher := ctx_cipher c; ctx_encrypt := ctx_encrypt c;
     ctx_no_padding := b; ctx_key_len := ctx_key_len c;
     ctx_key := ctx_key c; ctx_iv := ctx_iv c; ctx_buf := ctx_buf c;
     ctx_final := ctx_final c |}.

Definition set_ctx_key_len (c : evp_cipher_ctx) (n : nat) : evp_cipher_ctx :=
  {| ctx_cipher := ctx_cipher c; ctx_encrypt := ctx_encrypt c;
     ctx_no_padding := ctx_no_padding c; ctx_key_len := n;
     ctx_key := ctx_key c; ctx_iv := ctx_iv c; ctx_buf := ctx_buf c;
     ctx_final := ctx_final c |}.

(** The streaming part of a context: chaining value, partial block, and
    the decrypted block that is held back. *)
Definition set_stream (c : evp_cipher_ctx) (iv buf : list byte)
    (final : option (list byte)) : evp_cipher_ctx :=
  {| ctx_cipher := ctx_cipher c; ctx_encrypt := ctx_encrypt c;
     ctx_no_padding := ctx_no_padding c; ctx_key_len := ctx_key_len c;
     ctx_key := ctx_key c; ctx_iv := iv; ctx_buf := buf;
     ctx_final := final |}.

Definition byte_of_nat (n : nat) : byte :=
  default "000"%byte (Byte.of_N (N.of_nat n)).

Definition nat_of_byte (b : byte) : nat := N.to_nat (Byte.to_N b).

(** [n] whole blocks of [data], one after the other, threading the
    chaining value. *)
Fixpoint do_cipher (step : list byte -> list byte -> list byte * list byte)
    (bs n : nat) (chain data : list byte) : list byte * list byte :=
  match n with
  | O => ([], chain)
  | S n' =>
      let (o, chain') := step chain (take bs data) in
      let (os, chain'') := do_cipher step bs n' chain' (drop bs data) in
      (o ++ os, chain'')
  end.

Definition block_step (d : cipher_desc) (c : evp_cipher_ctx)
  : list byte -> list byte -> list byte * list byte :=
  if ctx_encrypt c then enc_block d (ctx_key c) else dec_block d (ctx_key c).

(** Buffered input and new input together: the whole blocks are
    transformed and written, the rest stays buffered. *)
Definition block_update (d : cipher_desc) (c : evp_cipher_ctx)
    (inp : list byte) : list byte * evp_cipher_ctx :=
  let data := ctx_buf c ++ inp in
  let n := (length data / block_size d)%nat in
  let (out, chain) :=
    do_cipher (block_step d c) (block_size d) n (ctx_iv c) data in
  (out, set_stream c chain (drop (n * block_size d) data) (ctx_final c)).

(** Decrypting with padding: the last whole block is held back until more
    input or the finalisation shows whether it carries the padding. *)
Definition decrypt_update (d : cipher_desc) (c : evp_cipher_ctx)
    (inp : list byte) : list byte * evp_cipher_ctx :=
  if ctx_no_padding c then block_update d c inp
  else
    match inp with
    | [] => ([], c)
    | _ :: _ =>
        let (out, c') := block_update d c inp in
        let held := default [] (ctx_final c) in
        if (1 <? block_size d)%nat && (length (ctx_buf c') =? 0)%nat then
          let keep := (length out - block_size d)%nat in
          (held ++ take keep out,
           set_stream c' (ctx_iv c') (ctx_buf c') (Some (drop keep out)))
        else
          (held ++ out, set_stream c' (ctx_iv c') (ctx_buf c') None)
    end.

Definition cipher_update (d : cipher_desc) (c : evp_cipher_ctx)
    (inp : list byte) : list byte * evp_cipher_ctx :=
  if ctx_encrypt c then block_update d c inp else decrypt_update d c inp.

(** Finalisation when encrypting: the partial block is padded up to a
    whole block with the count of padding bytes; without padding, a partial
    block is an error. *)
Definition encrypt_final (d : cipher_desc) (c : evp_cipher_ctx)
  : Z + list byte * evp_cipher_ctx :=
  if (block_size d =? 1)%nat then inr ([], c)
  else if ctx_no_padding c then
    match ctx_buf c with
    | [] => inr ([], c)
    | _ :: _ => inl EVP_R_DATA_NOT_MULTIPLE_OF_BLOCK_LENGTH
    end
  else
    let n := (block_size d - length (ctx_buf c))%nat in
    let (out, chain) :=
      enc_block d (ctx_key c) (ctx_iv c)
        (ctx_buf c ++ replicate n (byte_of_nat n)) in
    inr (out, set_stream c chain (ctx_buf c) (ctx_final c)).

(** The padding of a decrypted last block is well formed: its last byte
    [n] is between 1 and the block size and the last [n] bytes are [n]. *)
Definition padding_of (bs : nat) (block : list byte) : option nat :=
  let n := nat_of_byte (List.last block "000"%byte) in
  if (n =? 0)%nat || (bs <? n)%nat then None
  else if forallb (fun b => Byte.eqb b (byte_of_nat n)) (drop (bs - n) block)
  then Some n
  else None.

(** Finalisation when decrypting: the block held back is checked and its
    padding removed. *)
Definition decrypt_final (d : cipher_desc) (c : evp_cipher_ctx)
  : Z + list byte * evp_cipher_ctx :=
  if ctx_no_padding c then
    match ctx_buf c with
    | [] => inr ([], c)
    | _ :: _ => inl EVP_R_DATA_NOT_MULTIPLE_OF_BLOCK_LENGTH
    end
  else if (1 <? block_size d)%nat then
    match ctx_buf c, ctx_final c with
    | [], Some block =>
        match padding_of (block_size d) block with
        | Some n => inr (take (block_size d - n) block, c)
        | None => inl EVP_R_BAD_DECRYPT
        end
    | _, _ => inl EVP_R_WRONG_FINAL_BLOCK_LENGTH
    end
  else inr ([], c).

Definition cipher_final (d : cipher_desc) (c : evp_cipher_ctx)
  : Z + list byte * evp_cipher_ctx :=
  if ctx_encrypt c then encrypt_final d c else decrypt_final d c.

(** Binding a context.  A null [cipher] keeps the algorithm bound before;
    a direction of -1 keeps the direction.  Binding an algorithm other than
    the one bound before sets its default key length and turns padding on;
    the key must have the key length in force and the IV, for an algorithm
    that takes one, the IV length.  The streaming state starts afresh. *)
Definition cipher_init (registry : EVP_CIPHER -> option cipher_desc)
    (c : evp_cipher_ctx) (cipher : option EVP_CIPHER) (key iv : list byte)
    (enc : Z) : Z + evp_cipher_ctx :=
  let chosen := match cipher with Some a => Some a | None => ctx_cipher c end in
  match chosen with
  | None => inl EVP_R_NO_CIPHER_SET
  | Some a =>
      match registry a with
      | None => inl EVP_R_NO_CIPHER_SET
      | Some d =>
          let same := bool_decide (ctx_cipher c = Some a) in
          let klen := if same then ctx_key_len c else key_len d in
          let nopad := if same then ctx_no_padding c else false in
          let e := if enc =? -1 then ctx_encrypt c else negb (enc =? 0) in
          if negb (length key =? klen)%nat then inl EVP_R_INVALID_KEY_LENGTH
          else if (0 <? iv_len d)%nat && negb (length iv =? iv_len d)%nat
          then inl EVP_R_INVALID_IV_LENGTH
          else inr {| ctx_cipher := Some a; ctx_encrypt := e;
                      ctx_no_padding := nopad; ctx_key_len := klen;
                      ctx_key := key;
                      ctx_iv := if (iv_len d =? 0)%nat then [] else iv;
                      ctx_buf := []; ctx_final := None |}
      end
  end.

(** Changing the key length: only for a variable-length algorithm, and
    only to a length it supports. *)
Definition cipher_set_key_length (d : cipher_desc) (c : evp_cipher_ctx)
    (keylen : Z) : Z + evp_cipher_ctx :=
  if variable_key d && (0 <? keylen) && key_len_ok d (Z.to_nat keylen)
  then inr (set_ctx_key_len c (Z.to_nat keylen))
  else inl EVP_R_INVALID_KEY_LENGTH.

(** The algorithm a context is bound to. *)
Definition bound (registry : EVP_CIPHER -> option cipher_desc)
    (w : world) (h : handle) : option (evp_cipher_ctx * cipher_desc) :=
  c ← contexts w !! h;
  a ← ctx_cipher c;
  d ← registry a;
  Some (c, d).

(** Modelled from the spec: the native library of section 6, every call
    on the world. *)
Definition native (registry : EVP_CIPHER -> option cipher_desc)
  : library world :=
  fun c =>
    match c as c0 return world -> answer c0 * world with
    | EVP_CIPHER_CTX_init h => fun w => (tt, put w h blank)
    | EVP_CIPHER_CTX_cleanup h => fun w => (1, put w h blank)
    | EVP_CIPHER_CTX_set_padding h pad => fun w =>
        match contexts w !! h with
        | Some c => (1, put w h (set_no_padding c (pad =? 0)))
        | None => (1, w)
        end
    | EVP_CIPHER_CTX_key_length h => fun w =>
        match contexts w !! h with
        | Some c => (Z.of_nat (ctx_key_len c), w)
        | None => (0, w)
        end
    | EVP_CIPHER_CTX_set_key_length h keylen => fun w =>
        match bound registry w h with
        | Some (c, d) =>
            match cipher_set_key_length d c keylen with
            | inr c' => (1, put w h c')
            | inl code => (0, push_error w code)
            end
        | None => (0, push_error w EVP_R_NO_CIPHER_SET)
        end
    | EVP_CIPHER_CTX_ctrl h type arg ptr => fun w =>
        ((0, ptr), push_error w EVP_R_CTRL_NOT_IMPLEMENTED)
    | EVP_CIPHER_CTX_cipher h => fun w =>
        (c ← contexts w !! h; ctx_cipher c, w)
    | EVP_CIPHER_CTX_encrypting h => fun w =>
        match contexts w !! h with
        | Some c => (bool_to_int (ctx_encrypt c), w)
        | None => (0, w)
        end
    | EVP_CIPHER_CTX_test_flags h flags => fun w =>
        match contexts w !! h with
        | Some c =>
            (Z.land (if ctx_no_padding c then EVP_CIPH_NO_PADDING else 0) flags, w)
        | None => (0, w)
        end
    | EVP_CipherInit_ex h cipher impl key iv enc => fun w =>
        match contexts w !! h with
        | Some c =>
            match cipher_init registry c cipher key iv enc with
            | inr c' => (1, put w h c')
            | inl code => (0, push_error w code)
            end
        | None => (0, push_error w EVP_R_NO_CIPHER_SET)
        end
    | EVP_CipherUpdate h inp => fun w =>
        match bound registry w h with
        | Some (c, d) =>
            let (out, c') := cipher_update d c inp in ((1, out), put w h c')
        | None => ((0, []), push_error w EVP_R_NO_CIPHER_SET)
        end
    | EVP_CipherFinal_ex h => fun w =>
        match bound registry w h with
        | Some (c, d) =>
            match cipher_final d c with
            | inr (out, c') => ((1, out), put w h c')
            | inl code => ((0, []), push_error w code)
            end
        | None => ((0, []), push_error w EVP_R_NO_CIPHER_SET)
        end
    | ERR_get_error => fun w =>
        match errors w with
        | [] => (0, w)
        | code :: rest => (code, {| contexts := contexts w; errors := rest |})
        end
    end.

(** What the round trip needs of an algorithm: a block size a padding byte
    can count, blocks that keep their length, and a decryption that undoes
    the encryption of a block and arrives at the same chaining value. *)
Definition sound (d : cipher_desc) : Prop :=
  (1 <= block_size d <= 255)%nat /\
  (forall key chain b, length b = block_size d ->
     length (enc_block d key chain b).1 = block_size d) /\
  (forall key chain b, length b = block_size d ->
     dec_block d key chain (enc_block d key chain b).1
     = (b, (enc_block d key chain b).2)).

(** A key and an IV the algorithm accepts on a context bound afresh. *)
Definition valid_key_iv (d : cipher_desc) (key iv : list byte) : Prop :=
  length key = key_len d /\ (iv_len d = 0%nat \/ length iv = iv_len d).

(** A context as a successful binding of a context that was not bound to
    [a] with another key length or without padding leaves it. *)
Definition armed (a : EVP_CIPHER) (d : cipher_desc) (e : bool)
    (key iv : list byte) : evp_cipher_ctx :=
  {| ctx_cipher := Some a; ctx_encrypt := e; ctx_no_padding := false;
     ctx_key_len := key_len d; ctx_key := key;
     ctx_iv := if (iv_len d =? 0)%nat then [] else iv;
     ctx_buf := []; ctx_final := None |}.

(** A context that a binding to [a] treats like a new one: if it is bound
    to [a] already, it has the default key length and padding on. *)
Definition unconfigured (a : EVP_CIPHER) (d : cipher_desc)
    (c : evp_cipher_ctx) : Prop :=
  ctx_cipher c = Some a ->
  ctx_key_len c = key_len d /\ ctx_no_padding c = false.

(** What encrypting [plaintext] in one update and a finalisation writes. *)
Definition ciphertext (a : EVP_CIPHER) (d : cipher_desc)
    (key iv plaintext : list byte) : list byte :=
  let (o1, c1) := cipher_update d (armed a d true key iv) plaintext in
  match cipher_final d c1 with
  | inr (o2, _) => o1 ++ o2
  | inl _ => o1
  end.

(** *** A small registry *)

Definition byte_xor (a b : byte) : byte :=
  match Byte.to_bits a, Byte.to_bits b with
  | (a0, (a1, (a2, (a3, (a4, (a5, (a6, a7))))))),
    (b0, (b1, (b2, (b3, (b4, (b5, (b6, b7))))))) =>
      Byte.of_bits (xorb a0 b0, (xorb a1 b1, (xorb a2 b2, (xorb a3 b3,
        (xorb a4 b4, (xorb a5 b5, (xorb a6 b6, xorb a7 b7)))))))
  end.

(** [block] with the bytes of [pad] xored in, as far as [pad] reaches. *)
Fixpoint xor_with (pad block : list byte) : list byte :=
  match block, pad with
  | [], _ => []
  | x :: block', [] => x :: xor_with [] block'
  | x :: block', p :: pad' => byte_xor x p :: xor_with pad' block'
  end.

(** Cipher block chaining over "xor with the key", blocks of four bytes,
    keys of exactly two bytes. *)
Definition toy_cbc : cipher_desc :=
  {| block_size := 4; key_len := 2; iv_len := 4; variable_key := false;
     key_len_ok := fun _ => false;
     enc_block := fun key chain b =>
       let ct := xor_with key (xor_with chain b) in (ct, ct);
     dec_block := fun key chain ct =>
       (xor_with chain (xor_with key ct), ct) |}.

(** A stream cipher: blocks of one byte, keys of one to eight bytes. *)
Definition toy_stream : cipher_desc :=
  {| block_size := 1; key_len := 2; iv_len := 0; variable_key := true;
     key_len_ok := fun n => (1 <=? n)%nat && (n <=? 8)%nat;
     enc_block := fun key chain b => (xor_with key b, chain);
     dec_block := fun key chain b => (xor_with key b, chain) |}.

Definition toy_registry (a : EVP_CIPHER) : option cipher_desc :=
  match a with
  | 1%N => Some toy_cbc
  | 2%N => Some toy_stream
  | _ => None
  end.

Definition empty_world : world := {| contexts := ∅; errors := [] |}.

(** Inputs for the examples: two context objects, the two algorithms, a
    key and an IV they accept. *)
Definition ctx_a : cipher_context := {| m_ctx := 1%positive |}.
Definition ctx_b : cipher_context := {| m_ctx := 2%positive |}.
Definition cbc : cipher_algorithm := {| m_cipher := Some 1%N |}.
Definition stream : cipher_algorithm := {| m_cipher := Some 2%N |}.
Definition key2 : list byte := ["k"; "2"]%byte.
Definition iv4 : list byte := ["i"; "v"; "4"; "!"]%byte.

(** The world in which [ctx_a] has been constructed, bound to [cbc] for
    decryption, and fed one block that holds nothing but padding. *)
Definition world_after_padding_block : world :=
  world_of
    (run (native toy_registry)
       (cipher_context_ctor ctx_a;;
        initialize ctx_a cbc decrypt key2 iv4 None;;
        update ctx_a (xor_with key2 (xor_with iv4 (replicate 4 (byte_of_nat 4)))))
       empty_world).

End Native.

(** * The sample programs

    [samples/pkey/pkey.cpp] and [samples/dh/dh.cpp]. *)
Module Samples.

(** ** The passphrase callback *)

(** [std::cout] and [std::cerr]. *)
Inductive stream : Type :=
| cout
| cerr.

#[global] Instance stream_eq_decision : EqDecision stream.
Proof. solve_decision. Defined.

(** The console: the lines still to be read from [std::cin] and what has
    been written so far, in order. *)
Record console : Type := {
  cin : list string;
  written : list (stream * string)
}.

(** [std::endl] *)
Definition endl : string := String (Ascii.ascii_of_nat 10) "".

(** The character of a double quote. *)
Definition dquote : string := String (Ascii.ascii_of_nat 34) "".

Definition put (s : stream) (text : string) (c : console) : console :=
  {| cin := cin c; written := written c ++ [(s, text)] |}.

(** [std::getline(std::cin, line)] into an empty string: the next line, or
    nothing at the end of the input. *)
Definition getline (c : console) : string * console :=
  match cin c with
  | [] => ("", c)
  | line :: rest => (line, {| cin := rest; written := written c |})
  end.

(** [std::copy(s.begin(), s.end(), buf)]: the characters of [s] over the
    beginning of [buf].  Characters that do not fit land behind the buffer;
    they show as a result longer than [buf]. *)
Definition copy_to (s : string) (buf : list Ascii.ascii) : list Ascii.ascii :=
  String.list_ascii_of_string s ++ drop (String.length s) buf.

(** [pem_passphrase_callback], with its arguments [buf], [buf_len] and
    [rwflag], the same in both samples: the value returned, the buffer and the console
    afterwards. *)
Definition pem_passphrase_callback (buf : list Ascii.ascii) (buf_len rwflag : Z)
    (c : console) : Z * list Ascii.ascii * console :=
  let c := put cout ("Passphrase (max: " +:+ pretty buf_len +:+ " characters): ") c in
  let (passphrase, c) := getline c in
  if bool_decide (passphrase = "") then
    (0, buf, put cerr ("Passphrase cannot be empty." +:+ endl) c)
  else if int_to_size_t buf_len <? Z.of_nat (String.length passphrase) then
    (0, buf,
     put cerr ("Passphrase cannot exceed " +:+ pretty buf_len +:+ " characters."
               +:+ endl) c)
  else if negb (rwflag =? 0) then
    let c := put cout "Confirm: " c in
    let (passphrase_confirmation, c) := getline c in
    if negb (bool_decide (passphrase_confirmation = passphrase)) then
      (0, buf, put cerr ("The two passphrases do not match !" +:+ endl) c)
    else
      (size_t_to_int (Z.of_nat (String.length passphrase)),
       copy_to passphrase buf, c)
  else
    (size_t_to_int (Z.of_nat (String.length passphrase)),
     copy_to passphrase buf, c).

(** The first and the second line of the input, empty when missing. *)
Definition first_line (c : console) : string := hd "" (cin c).
Definition second_line (c : console) : string := hd "" (tl (cin c)).

(** The input is accepted: a first line that is not empty and fits, and,
    when a confirmation is asked for, a second line equal to it. *)
Definition accepted (buf_len rwflag : Z) (c : console) : Prop :=
  first_line c <> ""
  /\ Z.of_nat (String.length (first_line c)) <= buf_len
  /\ (rwflag = 0 \/ second_line c = first_line c).

(** The tests of the callback, in its order: an empty first line, a first
    line longer than [buf_len] as a [size_t], a confirmation that differs. *)
Definition rejects (buf_len rwflag : Z) (c : console) : bool :=
  bool_decide (first_line c = "")
  || (int_to_size_t buf_len <? Z.of_nat (String.length (first_line c)))
  || (negb (rwflag =? 0) && negb (bool_decide (second_line c = first_line c))).

(** A console with the given input and nothing written yet, and a buffer of
    eight dots, for the examples. *)
Definition typed (lines : list string) : console :=
  {| cin := lines; written := [] |}.
Definition dots : list Ascii.ascii := replicate 8 (Ascii.ascii_of_nat 46).

(** What was written to [std::cerr]. *)
Definition errors_written (c : console) : list string :=
  omap (fun w => match w.1 with cerr => Some w.2 | cout => None end) (written c).

(** ** The main functions *)

(** A [FILE*] that is not null. *)
Definition FILE := positive.

(** An object of the library ([dsa_key], [pkey], [dh], a big number, a
    [cipher_algorithm]), by identity. *)
Definition object := N.

(** What a call can throw: something derived from [std::exception], with its
    [what()], or something else. *)
Inductive exn : Type :=
| std_exception (what : string)
| other_exception.

Definition EXIT_SUCCESS : Z := 0.
Definition EXIT_FAILURE : Z := 1.

(** What [main] calls: the standard library and the classes of the wrapper
    library, none of which is defined in the sample.  The passphrase callback
    that three of the calls are given is always [pem_passphrase_callback].
    The destructors of the objects of the wrapper library are not among the
    calls. *)
Inductive sample_call : Type :=
| error_strings_initializer_ctor
| error_strings_initializer_dtor
| cipher_initializer_ctor
| cipher_initializer_dtor
| write (s : stream) (text : string)
| fopen (filename mode : string)
| fclose (file : option FILE)
| dsa_key_generate_private_key (bits : Z)
| pkey_ctor
| pkey_set_dsa_key (pkey key : object)
| pkey_is_dsa (pkey : object)
| cipher_algorithm_ctor (name : string)
| pkey_write_private_key_pkcs8 (pkey : object) (file : option FILE)
    (algorithm : object)
| pkey_write_certificate_public_key (pkey : object) (file : option FILE)
| pkey_from_private_key (file : option FILE)
| dh_generate_parameters (bits generator : Z)
| dh_check (dh : object)
| dh_write_parameters (dh : object) (file : option FILE)
| dh_generate_key (dh : object)
| dh_from_parameters (file : option FILE)
| dh_public_key (dh : object)
| dh_compute_key (dh key : object).

(** What a call gives back; a call into the wrapper library gives its value
    or throws.  [fclose] of a null pointer is undefined behaviour: what is
    written here as its answer stands for nothing, and a run shows the
    program only up to the first such call ([closes_null] marks it). *)
Definition reply (c : sample_call) : Type :=
  match c with
  | error_strings_initializer_ctor | error_strings_initializer_dtor
  | cipher_initializer_ctor | cipher_initializer_dtor
  | write _ _ | fclose _ => unit
  | fopen _ _ => option FILE
  | dsa_key_generate_private_key _ | pkey_ctor | cipher_algorithm_ctor _
  | pkey_from_private_key _ | dh_generate_parameters _ _
  | dh_from_parameters _ | dh_public_key _ => (exn + object)%type
  | pkey_set_dsa_key _ _ | pkey_write_private_key_pkcs8 _ _ _
  | pkey_write_certificate_public_key _ _ | dh_write_parameters _ _
  | dh_generate_key _ => (exn + unit)%type
  | pkey_is_dsa _ => (exn + bool)%type
  | dh_check _ => (exn + Z)%type
  | dh_compute_key _ _ => (exn + list byte)%type
  end.

(** A call together with what it gave back. *)
Inductive action : Type :=
| Act (c : sample_call) (a : reply c).

(** Programs over these calls, with local variables of type [S] that keep
    their value when an exception is thrown. *)
Inductive sprog (S R : Type) : Type :=
| Done (r : R)
| Raise (e : exn)
| Do (c : sample_call) (k : reply c -> sprog S R)
| Load (k : S -> sprog S R)
| Store (s : S) (k : sprog S R).

Arguments Done {S R} r.
Arguments Raise {S R} e.
Arguments Do {S R} c k.
Arguments Load {S R} k.
Arguments Store {S R} s k.

Fixpoint sbind {S A B : Type} (p : sprog S A) (f : A -> sprog S B) : sprog S B :=
  match p with
  | Done a => f a
  | Raise e => Raise e
  | Do c k => Do c (fun x => sbind (k x) f)
  | Load k => Load (fun s => sbind (k s) f)
  | Store s k => Store s (sbind k f)
  end.

#[global] Instance sprog_ret {S : Type} : MRet (sprog S) := @Done S.
#[global] Instance sprog_bind {S : Type} : MBind (sprog S) :=
  fun A B f p => sbind p f.

(** A call that does not throw. *)
Definition perform {S : Type} (c : sample_call) : sprog S (reply c) := Do c Done.

(** A call into the wrapper library: its value, or its exception. *)
Definition lib {S T : Type} (c : sample_call) (unpack : reply c -> exn + T)
  : sprog S T :=
  Do c (fun a => match unpack a with inl e => Raise e | inr v => Done v end).

Definition load {S : Type} : sprog S S := Load Done.
Definition store {S : Type} (s : S) : sprog S unit := Store s (Done tt).

(** [try { body } catch (std::exception& ex) { handler }] *)
Fixpoint try_catch {S R : Type} (body : sprog S R) (handler : string -> sprog S R)
  : sprog S R :=
  match body with
  | Done r => Done r
  | Raise (std_exception what) => handler what
  | Raise other_exception => Raise other_exception
  | Do c k => Do c (fun a => try_catch (k a) handler)
  | Load k => Load (fun s => try_catch (k s) handler)
  | Store s k => Store s (try_catch k handler)
  end.

(** How [main] ends: with an exit status, or, when an exception leaves it,
    in [std::terminate]. *)
Inductive ending : Type :=
| Exit (status : Z)
| Terminate (e : exn).

Record srun_result (S E : Type) : Type := SRunResult {
  ending_of : ending;
  locals_of : S;
  env_of : E;
  actions_of : list action
}.

Arguments SRunResult {S E}.
Arguments ending_of {S E}.
Arguments locals_of {S E}.
Arguments env_of {S E}.
Arguments actions_of {S E}.

(** The environment: what every call gives back. *)
Definition environment (E : Type) : Type :=
  forall c : sample_call, E -> reply c * E.

(** One more action in front of a run. *)
Definition log {S E : Type} (a : action) (r : srun_result S E) : srun_result S E :=
  SRunResult (ending_of r) (locals_of r) (env_of r) (a :: actions_of r).

Fixpoint srun {S E : Type} (env : environment E) (p : sprog S Z) (s : S) (e : E)
  : srun_result S E :=
  match p with
  | Done status => SRunResult (Exit status) s e []
  | Raise ex => SRunResult (Terminate ex) s e []
  | Do c k => let (a, e') := env c e in log (Act c a) (srun env (k a) s e')
  | Load k => srun env (k s) s e
  | Store s' k => srun env k s' e
  end.

(** [std::cout << text << std::endl] and [std::cerr << text << std::endl] *)
Definition say {S : Type} (s : stream) (text : string) : sprog S unit :=
  perform (write s (text +:+ endl)).

(** A [boost::shared_ptr<FILE>] that is the only owner of what it holds:
    empty, or owning a pointer, null or not, with the deleter [fclose]. *)
Definition shared_ptr : Type := option (option FILE).

(** The owner goes away or lets go: the deleter is called on what was owned,
    null or not; an empty pointer has nothing to delete. *)
Definition release {S : Type} (p : shared_ptr) : sprog S unit :=
  match p with
  | Some file => perform (fclose file)
  | None => Done tt
  end.

(** [catch (std::exception& ex)] in both samples. *)
Definition report {S : Type} (what : string) : sprog S (option Z) :=
  say cerr ("Exception: " +:+ what);;
  Done (Some EXIT_FAILURE).

Definition unable_to_open (filename purpose : string) : string :=
  "Unable to open " +:+ dquote +:+ filename +:+ dquote +:+ " for " +:+ purpose
  +:+ ".".

Definition private_key_filename : string := "private_key.pem".
Definition certificate_public_key_filename : string := "certificate_public_key.pem".

(** [main] of [pkey.cpp], from the first test of a file to a [return]; the
    locals are [private_key_file] and [certificate_public_key_file].  The
    operands of the line that prints the type check are evaluated before
    anything of the line is written. *)
Definition pkey_body : sprog (shared_ptr * shared_ptr) Z :=
  files ← load;
  if decide (files.1 = Some None) then
    say cerr (unable_to_open private_key_filename "writing");;
    Done EXIT_FAILURE
  else if decide (files.2 = Some None) then
    say cerr (unable_to_open certificate_public_key_filename "writing");;
    Done EXIT_FAILURE
  else
    returned ← try_catch
      (say cout "Generating DSA key. This can take some time...";;
       dsa_key ← lib (dsa_key_generate_private_key 1024) id;
       say cout "Done.";;
       pkey ← lib pkey_ctor id;
       lib (pkey_set_dsa_key pkey dsa_key) id;;
       is_dsa ← lib (pkey_is_dsa pkey) id;
       say cout ("Checking that the type is correct: "
                 +:+ (if is_dsa : bool then "OK" else "FAILURE"));;
       algorithm ← lib (cipher_algorithm_ctor "AES256") id;
       lib (pkey_write_private_key_pkcs8 pkey (default None files.1) algorithm) id;;
       say cout ("Private key written succesfully to " +:+ dquote
                 +:+ private_key_filename +:+ dquote +:+ ".");;
       lib (pkey_write_certificate_public_key pkey (default None files.2)) id;;
       say cout ("Certificate public key written succesfully to " +:+ dquote
                 +:+ certificate_public_key_filename +:+ dquote +:+ ".");;
       Done None)
      report;
    match returned with
    | Some status => Done status
    | None =>
        (* certificate_public_key_file.reset() *)
        release files.2;;
        store (files.1, None);;
        (* private_key_file.reset(fopen(..., "r"), fclose) *)
        file ← perform (fopen private_key_filename "r");
        release files.1;;
        store (Some file, None);;
        if decide (file = None) then
          say cerr (unable_to_open private_key_filename "reading");;
          Done EXIT_FAILURE
        else
          returned ← try_catch
            (say cout ("Trying to read back the private key from " +:+ dquote
                       +:+ private_key_filename +:+ dquote +:+ "...");;
             pkey ← lib (pkey_from_private_key file) id;
             say cout "Done.";;
             Done None)
            report;
          Done (default EXIT_SUCCESS returned)
    end.

(** [main] of [pkey.cpp]: the two initializers, the banner, the two files,
    the body, and on the way out the locals in the reverse order. *)
Definition pkey_main : sprog (shared_ptr * shared_ptr) Z :=
  perform error_strings_initializer_ctor;;
  perform cipher_initializer_ctor;;
  say cout "PKEY sample";;
  say cout "===========";;
  say cout "";;
  private_key_file ← perform (fopen private_key_filename "w");
  certificate_public_key_file ← perform (fopen certificate_public_key_filename "w");
  store (Some private_key_file, Some certificate_public_key_file);;
  status ← pkey_body;
  files ← load;
  release files.2;;
  release files.1;;
  perform cipher_initializer_dtor;;
  perform error_strings_initializer_dtor;;
  Done status.

(** [operator==] on [std::vector<unsigned char>] decides equality. *)
#[global] Instance byte_eq_decision : EqDecision byte := Byte.byte_eq_dec.

(** The bits of [openssl/dh.h] that [main] of [dh.cpp] tests. *)
Record dh_check_bits : Type := {
  DH_CHECK_P_NOT_SAFE_PRIME : Z;
  DH_NOT_SUITABLE_GENERATOR : Z;
  DH_UNABLE_TO_CHECK_GENERATOR : Z
}.

Definition parameters_filename : string := "parameters.pem".

(** [if (codes & bit) std::cerr << text << std::endl;] *)
Definition explain {S : Type} (codes bit : Z) (text : string) : sprog S unit :=
  if Z.land codes bit =? 0 then Done tt else say cerr text.

(** [main] of [dh.cpp], from the test of the file to a [return]; the local
    is [parameters_file]. *)
Definition dh_body (bits : dh_check_bits) : sprog shared_ptr Z :=
  parameters_file ← load;
  if decide (parameters_file = Some None) then
    say cerr (unable_to_open parameters_filename "writing");;
    Done EXIT_FAILURE
  else
    returned ← try_catch
      (say cout "Generating DH parameters. This can take some time...";;
       dh ← lib (dh_generate_parameters 1024 2) id;
       codes ← lib (dh_check dh) id;
       if negb (codes =? 0) then
         say cerr "Generation failed.";;
         explain codes (DH_CHECK_P_NOT_SAFE_PRIME bits) "p is not a safe prime.";;
         explain codes (DH_NOT_SUITABLE_GENERATOR bits) "g is not a suitable generator.";;
         explain codes (DH_UNABLE_TO_CHECK_GENERATOR bits)
           "g is not a correct generator. Must be either 2 or 5.";;
         Done (Some EXIT_FAILURE)
       else
         lib (dh_write_parameters dh (default None parameters_file)) id;;
         say cout ("DH parameters written succesfully to " +:+ dquote
                   +:+ parameters_filename +:+ dquote +:+ ".");;
         say cout "Done.";;
         say cout "Generating DH key...";;
         lib (dh_generate_key dh) id;;
         say cout "Done.";;
         (* parameters_file.reset(fopen(..., "r"), fclose) *)
         file ← perform (fopen parameters_filename "r");
         release parameters_file;;
         store (Some file);;
         if decide (file = None) then
           say cerr (unable_to_open parameters_filename "reading");;
           Done (Some EXIT_FAILURE)
         else
           say cout ("Trying to read back the DH parameters from " +:+ dquote
                     +:+ parameters_filename +:+ dquote +:+ "...");;
           dh2 ← lib (dh_from_parameters file) id;
           say cout "Done.";;
           say cout "Generating DH key...";;
           lib (dh_generate_key dh2) id;;
           say cout "Done.";;
           say cout "Computing key A...";;
           public2 ← lib (dh_public_key dh2) id;
           key_a ← lib (dh_compute_key dh public2) id;
           say cout "Done.";;
           say cout "Computing key B...";;
           public ← lib (dh_public_key dh) id;
           key_b ← lib (dh_compute_key dh2 public) id;
           say cout "Done.";;
           say cout ("Comparing key A and key B: "
                     +:+ (if decide (key_a = key_b) then "IDENTICAL" else "DIFFERENT"));;
           Done None)
      report;
    Done (default EXIT_SUCCESS returned).

(** [main] of [dh.cpp]. *)
Definition dh_main (bits : dh_check_bits) : sprog shared_ptr Z :=
  perform error_strings_initializer_ctor;;
  perform cipher_initializer_ctor;;
  say cout "DH sample";;
  say cout "=========";;
  say cout "";;
  say cout ("Using DH keys of " +:+ pretty 1024 +:+ " bits.");;
  parameters_file ← perform (fopen parameters_filename "w");
  store (Some parameters_file);;
  status ← dh_body bits;
  file ← load;
  release file;;
  perform cipher_initializer_dtor;;
  perform error_strings_initializer_dtor;;
  Done status.

(** *** Reading a trace *)

(** The call went well: [fopen] gave a stream, a call into the wrapper
    library did not throw, and [dh.check] found nothing. *)
Definition went_well (a : action) : bool :=
  match a with
  | Act c x =>
      match c as c0 return reply c0 -> bool with
      | fopen _ _ => fun x => match x with Some _ => true | None => false end
      | dh_check _ => fun x => match x with inr codes => codes =? 0 | inl _ => false end
      | dsa_key_generate_private_key _ | pkey_ctor | cipher_algorithm_ctor _
      | pkey_from_private_key _ | dh_generate_parameters _ _
      | dh_from_parameters _ | dh_public_key _ =>
          fun x => match x with inr _ => true | inl _ => false end
      | pkey_set_dsa_key _ _ | pkey_write_private_key_pkcs8 _ _ _
      | pkey_write_certificate_public_key _ _ | dh_write_parameters _ _
      | dh_generate_key _ =>
          fun x => match x with inr _ => true | inl _ => false end
      | pkey_is_dsa _ => fun x => match x with inr _ => true | inl _ => false end
      | dh_compute_key _ _ => fun x => match x with inr _ => true | inl _ => false end
      | _ => fun _ => true
      end x
  end.

(** What [fopen] gave, in order. *)
Definition opened (t : list action) : list (option FILE) :=
  omap (fun a =>
          match a with
          | Act c x =>
              match c as c0 return reply c0 -> option (option FILE) with
              | fopen _ _ => fun x => Some x
              | _ => fun _ => None
              end x
          end) t.

(** What [fclose] was given, in order. *)
Definition closed (t : list action) : list (option FILE) :=
  omap (fun a =>
          match a with
          | Act (fclose file) _ => Some file
          | _ => None
          end) t.

(** What [dh.check] reported, in order. *)
Definition reported (t : list action) : list Z :=
  omap (fun a =>
          match a with
          | Act c x =>
              match c as c0 return reply c0 -> option Z with
              | dh_check _ => fun x => match x with inr codes => Some codes | inl _ => None end
              | _ => fun _ => None
              end x
          end) t.

(** The calls that use the DH parameters once they are checked. *)
Definition uses_parameters (a : action) : bool :=
  match a with
  | Act (dh_write_parameters _ _) _ | Act (dh_generate_key _) _
  | Act (dh_from_parameters _) _ | Act (dh_public_key _) _
  | Act (dh_compute_key _ _) _ => true
  | _ => false
  end.

(** [fclose] is handed a null pointer: undefined behaviour. *)
Definition closes_null (a : action) : bool :=
  match a with
  | Act (fclose None) _ => true
  | _ => false
  end.

(** [fopen] gave a null pointer. *)
Definition fopen_failed (a : action) : bool :=
  match a with
  | Act c x =>
      match c as c0 return reply c0 -> bool with
      | fopen _ _ => fun x => match x with Some _ => false | None => true end
      | _ => fun _ => false
      end x
  end.

(** A call into the wrapper library that is handed a null stream. *)
Definition hands_over_null (a : action) : bool :=
  match a with
  | Act (pkey_write_private_key_pkcs8 _ None _) _
  | Act (pkey_write_certificate_public_key _ None) _
  | Act (pkey_from_private_key None) _
  | Act (dh_write_parameters _ None) _
  | Act (dh_from_parameters None) _ => true
  | _ => false
  end.

Definition same_stream (s s' : stream) : bool :=
  match s, s' with
  | cout, cout | cerr, cerr => true
  | _, _ => false
  end.

(** The lines written to a stream, in order. *)
Definition lines_on (s : stream) (t : list action) : list string :=
  omap (fun a =>
          match a with
          | Act (write s' text) _ =>
              if same_stream s' s then Some text else None
          | _ => None
          end) t.

(** *** Environments for the examples *)

(** An environment in which the calls picked out by [bad] fail ([fopen]
    gives null, a call into the library throws [ex]) and the others go well;
    [dh.check] reports [codes], and both parties compute the same key exactly
    when [agree] holds.  Its state is the next free [FILE]. *)
Definition scripted (bad : sample_call -> bool) (ex : exn) (codes : Z)
    (agree : bool) : environment positive :=
  fun c =>
    let failing := bad c in
    match c as c0 return positive -> reply c0 * positive with
    | error_strings_initializer_ctor | error_strings_initializer_dtor
    | cipher_initializer_ctor | cipher_initializer_dtor
    | write _ _ | fclose _ => fun n => (tt, n)
    | fopen _ _ => fun n => if failing then (None, n) else (Some n, Pos.succ n)
    | dsa_key_generate_private_key _ | pkey_ctor | cipher_algorithm_ctor _
    | pkey_from_private_key _ | dh_from_parameters _ | dh_public_key _ =>
        fun n => (if failing then inl ex else inr 1%N, n)
    | dh_generate_parameters _ _ =>
        fun n => (if failing then inl ex else inr 2%N, n)
    | pkey_set_dsa_key _ _ | pkey_write_private_key_pkcs8 _ _ _
    | pkey_write_certificate_public_key _ _ | dh_write_parameters _ _
    | dh_generate_key _ => fun n => (if failing then inl ex else inr tt, n)
    | pkey_is_dsa _ => fun n => (if failing then inl ex else inr true, n)
    | dh_check _ => fun n => (if failing then inl ex else inr codes, n)
    | dh_compute_key dh _ =>
        fun n =>
          (if failing then inl ex
           else inr (if agree then [] else replicate (N.to_nat dh) "000"%byte), n)
    end.

Definition nothing_fails (c : sample_call) : bool := false.

Definition reading_fails (c : sample_call) : bool :=
  match c with
  | fopen _ mode => bool_decide (mode = "r")
  | _ => false
  end.

Definition writing_the_key_fails (c : sample_call) : bool :=
  match c with
  | pkey_write_private_key_pkcs8 _ _ _ => true
  | _ => false
  end.

(** The bits as [openssl/dh.h] has them. *)
Definition openssl_bits : dh_check_bits :=
  {| DH_CHECK_P_NOT_SAFE_PRIME := 2;
     DH_NOT_SUITABLE_GENERATOR := 8;
     DH_UNABLE_TO_CHECK_GENERATOR := 4 |}.

End Samples.

(** * Properties *)

(** ** Running programs *)

Section running.
Context {W : Type} (native : library W).

Lemma run_bind {A B : Type} (p : prog A) (f : A -> prog B) (w : W) :
  run native (p ≫= f) w =
  match result_of (run native p w) with
  | Returned a =>
      let r := run native (f a) (world_of (run native p w)) in
      RunResult (result_of r) (world_of r)
        (trace_of (run native p w) ++ trace_of r)
  | Raised e =>
      RunResult (Raised e) (world_of (run native p w))
        (trace_of (run native p w))
  end.
Proof.
  unfold mbind, prog_bind. revert w.
  induction p as [a | e | c k IH]; intros w; simpl.
  - destruct (run native (f a) w); reflexivity.
  - reflexivity.
  - destruct (native c w) as [x w']. rewrite IH.
    destruct (result_of (run native (k x) w')); reflexivity.
Qed.

Lemma run_call (c : native_call) (w : W) :
  run native (call c) w =
  RunResult (Returned (native c w).1) (native c w).2 [c].
Proof. unfold call. simpl. destruct (native c w); reflexivity. Qed.

Lemma run_throw_error_if_not (condition : bool) (w : W) :
  run native (throw_error_if_not condition) w =
  if condition then RunResult (Returned tt) w []
  else RunResult (Raised (CryptoError (native ERR_get_error w).1))
         (native ERR_get_error w).2 [ERR_get_error].
Proof.
  destruct condition; simpl; [reflexivity |].
  destruct (native ERR_get_error w); reflexivity.
Qed.

(** The destructor runs after the body, whatever the body did, and the
    block ends as the body ended. *)
Lemma run_finally {R : Type} (this : cipher_context) (body : prog R) (w : W) :
  result_of (run native (finally body (cipher_context_dtor this)) w)
    = result_of (run native body w)
  /\ trace_of (run native (finally body (cipher_context_dtor this)) w)
    = trace_of (run native body w) ++ [EVP_CIPHER_CTX_cleanup (m_ctx this)].
Proof.
  revert w. induction body as [r | e | c k IH]; intros w; simpl.
  - destruct (native _ w); simpl. split; reflexivity.
  - destruct (native _ w); simpl. split; reflexivity.
  - destruct (native c w) as [x w']. simpl.
    destruct (IH x w') as [-> ->]. split; reflexivity.
Qed.

Lemma run_scoped {R : Type} (this : cipher_context) (body : prog R) (w : W) :
  let w0 := (native (EVP_CIPHER_CTX_init (m_ctx this)) w).2 in
  result_of (run native (scoped this body) w) = result_of (run native body w0)
  /\ trace_of (run native (scoped this body) w)
     = EVP_CIPHER_CTX_init (m_ctx this)
       :: trace_of (run native body w0)
       ++ [EVP_CIPHER_CTX_cleanup (m_ctx this)].
Proof.
  unfold scoped, cipher_context_ctor, call, mbind, prog_bind. simpl.
  destruct (native (EVP_CIPHER_CTX_init (m_ctx this)) w) as [[] w0]. simpl.
  destruct (run_finally this body w0) as [-> ->]. split; reflexivity.
Qed.

End running.

Lemma count_app (f : native_call -> bool) (t1 t2 : list native_call) :
  count f (t1 ++ t2) = (count f t1 + count f t2)%nat.
Proof. induction t1 as [| c t1 IH]; simpl; [reflexivity | rewrite IH; lia]. Qed.

Lemma count_none (f : native_call -> bool) (t : list native_call) :
  Forall (fun c => f c = false) t -> count f t = 0%nat.
Proof. induction 1 as [| c t Hc _ IH]; simpl; [reflexivity | rewrite Hc, IH; reflexivity]. Qed.

Lemma calls_only_bind {A B : Type} (P : native_call -> Prop)
    (p : prog A) (f : A -> prog B) :
  calls_only P p -> (forall a, calls_only P (f a)) -> calls_only P (p ≫= f).
Proof.
  unfold mbind, prog_bind. intros Hp Hf.
  induction p as [a | e | c k IH]; simpl in *; [apply Hf | exact I |].
  destruct Hp as [Hc Hk]. split; [exact Hc | intros a; apply IH, Hk].
Qed.

Lemma throws_only_bind {A B : Type} (Q : error -> Prop)
    (p : prog A) (f : A -> prog B) :
  throws_only Q p -> (forall a, throws_only Q (f a)) -> throws_only Q (p ≫= f).
Proof.
  unfold mbind, prog_bind. intros Hp Hf.
  induction p as [a | e | c k IH]; simpl in *; [apply Hf | exact Hp |].
  intros a. apply IH, Hp.
Qed.

Lemma calls_only_run {W R : Type} (native : library W) (P : native_call -> Prop)
    (p : prog R) (w : W) :
  calls_only P p -> Forall P (trace_of (run native p w)).
Proof.
  revert w. induction p as [r | e | c k IH]; intros w Hp; simpl.
  - constructor.
  - constructor.
  - destruct Hp as [Hc Hk]. destruct (native c w) as [a w']. simpl.
    constructor; [exact Hc | apply IH, Hk].
Qed.

Lemma throws_only_run {W R : Type} (native : library W) (Q : error -> Prop)
    (p : prog R) (w : W) (e : error) :
  throws_only Q p -> result_of (run native p w) = Raised e -> Q e.
Proof.
  revert w. induction p as [r | e' | c k IH]; intros w Hp; simpl.
  - discriminate.
  - intros [= <-]. exact Hp.
  - destruct (native c w) as [a w']. simpl. apply IH, Hp.
Qed.

Lemma throw_error_if_not_calls (this : cipher_context) (b : bool) :
  calls_only (member_call this) (throw_error_if_not b).
Proof. destruct b; simpl; unfold member_call; simpl; intuition. Qed.

Lemma throw_error_if_not_throws (b : bool) :
  throws_only (fun e => exists code, e = CryptoError code) (throw_error_if_not b).
Proof. destruct b; simpl; eauto. Qed.

Lemma invoke_calls (this : cipher_context) (m : method) :
  calls_only (member_call this) (invoke this m).
Proof.
  pose proof (throw_error_if_not_calls this) as Ht.
  destruct m; simpl; unfold member_call; simpl;
    repeat first
      [ exact I
      | apply Ht
      | progress intros
      | split
      | left; reflexivity
      | reflexivity
      | apply calls_only_bind
      | match goal with |- context [if ?b then _ else _] => destruct b end
      | progress simpl ].
Qed.

Lemma invoke_all_calls (this : cipher_context) (ms : list method) :
  calls_only (member_call this) (invoke_all this ms).
Proof.
  induction ms as [| m ms IH]; simpl; [exact I |].
  apply calls_only_bind; [apply invoke_calls | intros _; exact IH].
Qed.

Lemma invoke_throws (this : cipher_context) (m : method) :
  throws_only adapter_error (invoke this m).
Proof.
  assert (Ht : forall b, throws_only adapter_error (throw_error_if_not b)).
  { intros []; simpl; unfold adapter_error; eauto. }
  destruct m; simpl; unfold adapter_error;
    repeat first
      [ exact I
      | apply Ht
      | progress intros
      | right; reflexivity
      | apply throws_only_bind
      | match goal with |- context [if ?b then _ else _] => destruct b end
      | progress simpl ].
Qed.

Lemma invoke_all_throws (this : cipher_context) (ms : list method) :
  throws_only adapter_error (invoke_all this ms).
Proof.
  induction ms as [| m ms IH]; simpl; [exact I |].
  apply throws_only_bind; [apply invoke_throws | intros _; exact IH].
Qed.

(** ** The member functions defined in the header *)

Section adapter.
Context {W : Type} (native : library W).

Lemma run_set_key_length (this : cipher_context) (len : Z) (w : W) :
  let a := native (EVP_CIPHER_CTX_set_key_length (m_ctx this) (size_t_to_int len)) w in
  run native (set_key_length this len) w =
  if int_to_bool a.1 then
    RunResult (Returned tt) a.2
      [EVP_CIPHER_CTX_set_key_length (m_ctx this) (size_t_to_int len)]
  else
    RunResult (Raised (CryptoError (native ERR_get_error a.2).1))
      (native ERR_get_error a.2).2
      [EVP_CIPHER_CTX_set_key_length (m_ctx this) (size_t_to_int len);
       ERR_get_error].
Proof.
  unfold set_key_length, call, mbind, prog_bind. simpl.
  destruct (native (EVP_CIPHER_CTX_set_key_length _ _) w) as [r w1]. simpl.
  destruct (int_to_bool r); simpl; [reflexivity |].
  destruct (native ERR_get_error w1); reflexivity.
Qed.

Lemma run_finalize (this : cipher_context) (w : W) :
  let f := native (EVP_CipherFinal_ex (m_ctx this)) w in
  let e := native (EVP_CIPHER_CTX_encrypting (m_ctx this)) f.2 in
  let p := native (EVP_CIPHER_CTX_test_flags (m_ctx this) EVP_CIPH_NO_PADDING) e.2 in
  result_of (run native (finalize this) w) =
  if int_to_bool f.1.1 then
    if (length f.1.2 =? 0)%nat && negb (int_to_bool e.1) && negb (int_to_bool p.1)
    then Raised PaddingError
    else Returned f.1.2
  else Raised (CryptoError (native ERR_get_error f.2).1).
Proof.
  unfold finalize, call, mbind, prog_bind. simpl.
  destruct (native (EVP_CipherFinal_ex _) w) as [[r out] w1]. simpl.
  destruct (int_to_bool r); simpl.
  - destruct (native (EVP_CIPHER_CTX_encrypting _) w1) as [enc w2]. simpl.
    destruct (native (EVP_CIPHER_CTX_test_flags _ _) w2) as [np w3]. simpl.
    destruct (_ && _); reflexivity.
  - destruct (native ERR_get_error w1); reflexivity.
Qed.

(** One [finalize] is one native finalisation, in every state. *)
Lemma count_final_finalize (this : cipher_context) (w : W) :
  count is_final (trace_of (run native (finalize this) w)) = 1%nat.
Proof.
  unfold finalize, call, mbind, prog_bind. simpl.
  destruct (native (EVP_CipherFinal_ex _) w) as [[r out] w1]. simpl.
  destruct (int_to_bool r); simpl.
  - destruct (native (EVP_CIPHER_CTX_encrypting _) w1) as [enc w2]. simpl.
    destruct (native (EVP_CIPHER_CTX_test_flags _ _) w2) as [np w3]. simpl.
    destruct (_ && _); reflexivity.
  - destruct (native ERR_get_error w1); reflexivity.
Qed.

End adapter.

Ltac run_native native :=
  unfold call, mbind, prog_bind; simpl;
  repeat
    (first
       [ match goal with
         | |- context [native ?c ?w] =>
             let a := fresh "a" in
             let w' := fresh "w" in
             destruct (native c w) as [a w']; try destruct a as [? ?]
         end
       | match goal with
         | |- context [throw_error_if_not ?b] => destruct b
         | |- context [if ?b then _ else _] => destruct b
         end ];
     simpl).

(** C6.  [set_padding] returns normally for every context, every argument,
    every native library and every state of it: the status of the native
    call is not looked at, so no error can come out of it. *)
Theorem set_padding_always_succeeds {W : Type} (native : library W)
    (this : cipher_context) (enabled : bool) (w : W) :
  result_of (run native (set_padding this enabled) w) = Returned tt
  /\ trace_of (run native (set_padding this enabled) w)
     = [EVP_CIPHER_CTX_set_padding (m_ctx this) (bool_to_int enabled)].
Proof. unfold set_padding. run_native native. split; reflexivity. Qed.





(** C10.  [raw] returns the handle in [m_ctx], whatever the state, without a
    native call and without an error; every call of every member function
    on a context is on that same handle; and a native call made from
    outside through the reference acts on the world the member functions
    then run in. *)
Theorem raw_exposes_the_handle {W : Type} (native : library W)
    (this : cipher_context) (w : W) :
  run native (raw this) w = RunResult (Returned (m_ctx this)) w []
  /\ (forall m c, In c (trace_of (run native (invoke this m) w)) ->
        target c = Some (m_ctx this) \/ target c = None)
  /\ (forall (R : Type) (f : handle -> native_call) (p : prog R),
        result_of (run native (h ← raw this; _ ← call (f h); p) w)
        = result_of (run native p (native (f (m_ctx this)) w).2)).
Proof.
  split; [reflexivity | split].
  - intros m c Hc.
    pose proof (calls_only_run native _ _ w (invoke_calls this m)) as Hall.
    rewrite List.Forall_forall in Hall. apply Hall in Hc. apply Hc.
  - intros R f p. unfold raw, call, mbind, prog_bind. simpl.
    destruct (native (f (m_ctx this)) w); reflexivity.
Qed.

(** C7.  For a context with automatic storage and any sequence of member
    function calls in its scope, the trace of native calls begins with the
    initialisation of the handle and ends with its clean-up, neither occurs
    anywhere else, and the block ends as the sequence ended: the clean-up is
    made when the sequence returns and when one of the calls raises. *)
Theorem handle_initialised_and_cleaned_up_once {W : Type} (native : library W)
    (this : cipher_context) (ms : list method) (w : W) :
  let r := run native (scoped this (invoke_all this ms)) w in
  let body :=
    run native (invoke_all this ms)
      (native (EVP_CIPHER_CTX_init (m_ctx this)) w).2 in
  trace_of r
  = EVP_CIPHER_CTX_init (m_ctx this)
    :: trace_of body ++ [EVP_CIPHER_CTX_cleanup (m_ctx this)]
  /\ count is_init (trace_of r) = 1%nat
  /\ count is_cleanup (trace_of r) = 1%nat
  /\ result_of r = result_of body.
Proof.
  intros r body.
  destruct (run_scoped native this (invoke_all this ms) w) as [Hres Htr].
  fold r body in Hres, Htr.
  assert (Hbody : Forall (member_call this) (trace_of body))
    by apply calls_only_run, invoke_all_calls.
  split; [exact Htr | split; [| split; [| exact Hres]]].
  - rewrite Htr. simpl. rewrite count_app. simpl.
    rewrite count_none; [reflexivity |].
    eapply Forall_impl; [exact Hbody |]. intros c Hc. apply Hc.
  - rewrite Htr. simpl. rewrite count_app. simpl.
    rewrite count_none; [reflexivity |].
    eapply Forall_impl; [exact Hbody |]. intros c Hc. apply Hc.
Qed.

(** A block that is left because [set_key_length] raised still ends with
    the clean-up of the handle. *)
Example scope_left_by_exception :
  let r := run (Native.native Native.toy_registry)
             (scoped Native.ctx_a
                (invoke_all Native.ctx_a
                   [m_initialize Native.cbc encrypt Native.key2 Native.iv4 None;
                    m_set_key_length 5;
                    m_update []]))
             Native.empty_world in
  result_of r = Raised (CryptoError Native.EVP_R_INVALID_KEY_LENGTH)
  /\ trace_of r
     = [EVP_CIPHER_CTX_init 1%positive;
        EVP_CipherInit_ex 1%positive (Some 1%N) None Native.key2 Native.iv4 1;
        EVP_CIPHER_CTX_set_key_length 1%positive 5;
        ERR_get_error;
        EVP_CIPHER_CTX_cleanup 1%positive].
Proof. split; vm_compute; reflexivity. Qed.

(** A key length set from outside, through the reference [raw] returns, is
    the key length the context reports afterwards. *)
Example key_length_set_through_raw :
  result_of
    (run (Native.native Native.toy_registry)
       (cipher_context_ctor Native.ctx_a;;
        initialize Native.ctx_a Native.stream encrypt Native.key2 [] None;;
        key_length Native.ctx_a)
       Native.empty_world)
  = Returned 2
  /\ result_of
       (run (Native.native Native.toy_registry)
          (cipher_context_ctor Native.ctx_a;;
           initialize Native.ctx_a Native.stream encrypt Native.key2 [] None;;
           h ← raw Native.ctx_a;
           _ ← call (EVP_CIPHER_CTX_set_key_length h 5);
           key_length Native.ctx_a)
          Native.empty_world)
     = Returned 5.
Proof. split; vm_compute; reflexivity. Qed.

(** C2.  When the native finalisation reports success and writes no byte,
    and the context reads as decrypting with padding enabled, [finalize]
    raises [PaddingError], which is no [CryptoError]; it neither returns
    normally nor reports a native failure. *)
Theorem finalize_zero_bytes_is_padding_error {W : Type} (native : library W)
    (this : cipher_context) (w : W) :
  let f := native (EVP_CipherFinal_ex (m_ctx this)) w in
  let e := native (EVP_CIPHER_CTX_encrypting (m_ctx this)) f.2 in
  let p := native (EVP_CIPHER_CTX_test_flags (m_ctx this) EVP_CIPH_NO_PADDING) e.2 in
  f.1.1 <> 0 -> f.1.2 = [] -> e.1 = 0 -> p.1 = 0 ->
  result_of (run native (finalize this) w) = Raised PaddingError
  /\ forall code, PaddingError <> CryptoError code.
Proof.
  intros f e p Hok Hout Henc Hpad.
  pose proof (run_finalize native this w) as H. cbv zeta in H.
  fold f in H. fold e in H. fold p in H. rewrite H.
  unfold int_to_bool. rewrite Hout, Henc, Hpad.
  destruct (Z.eqb_spec f.1.1 0) as [Hz | _]; [contradiction |].
  simpl. split; [reflexivity | discriminate].
Qed.

Lemma finalize_zero_bytes_is_padding_error_witness :
  result_of
    (run (Native.native Native.toy_registry) (finalize Native.ctx_a)
       Native.world_after_padding_block)
  = Raised PaddingError
  /\ forall code, PaddingError <> CryptoError code.
Proof.
  apply (finalize_zero_bytes_is_padding_error
           (Native.native Native.toy_registry) Native.ctx_a
           Native.world_after_padding_block).
  - vm_compute. discriminate.
  - vm_compute. reflexivity.
  - vm_compute. reflexivity.
  - vm_compute. reflexivity.
Defined.

(** With [update] and [finalize] as they are modelled here, without a check
    of their own for a finalisation that went before: whatever member
    functions are called on a context, in whatever order and state, the
    outcome of a call is [CryptoError], [PaddingError] or a normal return,
    and a [finalize] that follows a [finalize] which returned is handed to
    the native finalisation as the first one was. *)
Theorem adapter_never_raises_contract_violation {W : Type} (native : library W)
    (this : cipher_context) (ms : list method) (w : W) :
  result_of (run native (invoke_all this ms) w) <> Raised ContractViolation
  /\ match result_of (run native (finalize this) w) with
     | Returned _ =>
         count is_final
           (trace_of (run native (finalize this;; finalize this) w)) = 2%nat
     | Raised _ => True
     end.
Proof.
  split.
  - intros H.
    apply (throws_only_run native adapter_error) in H;
      [| apply invoke_all_throws].
    destruct H as [[code H] | H]; discriminate H.
  - rewrite run_bind.
    destruct (result_of (run native (finalize this) w)); [| exact I].
    cbn [trace_of]. rewrite count_app, !count_final_finalize. reflexivity.
Qed.

(** With [finalize] as it is modelled here, on the reference library, a
    second [finalize] on an encrypting context returns a block, as the first
    did. *)
Lemma second_finalize_returns_normally :
  exists o1 o2,
    result_of
      (run (Native.native Native.toy_registry)
         (cipher_context_ctor Native.ctx_a;;
          initialize Native.ctx_a Native.cbc encrypt Native.key2 Native.iv4 None;;
          o1 ← finalize Native.ctx_a;
          o2 ← finalize Native.ctx_a;
          Ret (o1, o2))
         Native.empty_world)
    = Returned (o1, o2)
    /\ length o2 = 4%nat.
Proof. eexists; eexists; split; vm_compute; reflexivity. Qed.

(** ** The reference library: blocks *)

Section blocks.
Variable step : list byte -> list byte -> list byte * list byte.
Variable bs : nat.

Lemma do_cipher_app (n m : nat) (chain a b : list byte) :
  length a = (n * bs)%nat ->
  Native.do_cipher step bs (n + m) chain (a ++ b) =
  ((Native.do_cipher step bs n chain a).1
     ++ (Native.do_cipher step bs m (Native.do_cipher step bs n chain a).2 b).1,
   (Native.do_cipher step bs m (Native.do_cipher step bs n chain a).2 b).2).
Proof.
  revert chain a. induction n as [| n IH]; intros chain a Ha.
  - destruct a; [| discriminate]. simpl.
    destruct (Native.do_cipher step bs m chain b); reflexivity.
  - cbn [Nat.add Native.do_cipher].
    rewrite take_app_le, drop_app_le by (simpl in Ha; lia).
    destruct (step chain (take bs a)) as [o chain'].
    rewrite IH by (rewrite length_drop; simpl in Ha; lia).
    destruct (Native.do_cipher step bs n chain' (drop bs a)) as [os c1].
    cbn [fst snd].
    destruct (Native.do_cipher step bs m c1 b) as [ot c2].
    cbn [fst snd]. rewrite app_assoc. reflexivity.
Qed.

Lemma do_cipher_prefix (n : nat) (chain a b : list byte) :
  length a = (n * bs)%nat ->
  Native.do_cipher step bs n chain (a ++ b) = Native.do_cipher step bs n chain a.
Proof.
  intros Ha. pose proof (do_cipher_app n 0 chain a b Ha) as H.
  rewrite Nat.add_0_r in H. rewrite H. simpl. rewrite app_nil_r.
  destruct (Native.do_cipher step bs n chain a); reflexivity.
Qed.

Lemma do_cipher_one (chain b : list byte) :
  length b = bs ->
  Native.do_cipher step bs 1 chain b = step chain b.
Proof.
  intros Hb. simpl. rewrite take_ge by lia.
  destruct (step chain b). rewrite app_nil_r. reflexivity.
Qed.

Lemma do_cipher_length (n : nat) (chain data : list byte) :
  (forall c b, length b = bs -> length (step c b).1 = bs) ->
  (n * bs <= length data)%nat ->
  length (Native.do_cipher step bs n chain data).1 = (n * bs)%nat.
Proof.
  intros Hstep. revert chain data.
  induction n as [| n IH]; intros chain data Hn; [reflexivity |].
  cbn [Native.do_cipher].
  pose proof (Hstep chain (take bs data)) as Ho.
  destruct (step chain (take bs data)) as [o chain'].
  specialize (IH chain' (drop bs data)).
  destruct (Native.do_cipher step bs n chain' (drop bs data)) as [os c1].
  cbn [fst] in *. rewrite length_app, Ho, IH.
  - simpl. reflexivity.
  - rewrite length_drop. simpl in Hn. lia.
  - rewrite length_take. simpl in Hn. lia.
Qed.

End blocks.

Lemma do_cipher_dec_enc (d : Native.cipher_desc) (key : list byte) (n : nat)
    (chain data : list byte) :
  Native.sound d ->
  length data = (n * Native.block_size d)%nat ->
  Native.do_cipher (Native.dec_block d key) (Native.block_size d) n chain
    (Native.do_cipher (Native.enc_block d key) (Native.block_size d) n chain data).1
  = (data,
     (Native.do_cipher (Native.enc_block d key) (Native.block_size d) n chain data).2).
Proof.
  intros (Hbs & Hlen & Hinv). revert chain data.
  induction n as [| n IH]; intros chain data Hd.
  - destruct data; [reflexivity | discriminate].
  - cbn [Native.do_cipher].
    assert (Ht : length (take (Native.block_size d) data) = Native.block_size d)
      by (rewrite length_take; simpl in Hd; lia).
    pose proof (Hlen key chain _ Ht) as Ho.
    pose proof (Hinv key chain _ Ht) as Hi.
    destruct (Native.enc_block d key chain (take (Native.block_size d) data))
      as [o chain'].
    cbn [fst snd] in Ho, Hi.
    specialize (IH chain' (drop (Native.block_size d) data)).
    destruct (Native.do_cipher (Native.enc_block d key) (Native.block_size d) n
                chain' (drop (Native.block_size d) data)) as [os c1].
    cbn [fst snd] in *.
    rewrite take_app_length', drop_app_length' by (symmetry; exact Ho).
    rewrite Hi, IH by (rewrite length_drop; simpl in Hd; lia).
    rewrite take_drop. reflexivity.
Qed.

(** ** The reference library: padding *)

Lemma nat_of_byte_of_nat (n : nat) :
  (n <= 255)%nat -> Native.nat_of_byte (Native.byte_of_nat n) = n.
Proof.
  intros Hn. unfold Native.nat_of_byte, Native.byte_of_nat.
  destruct (Byte.of_N (N.of_nat n)) as [b |] eqn:Hb.
  - apply Byte.to_of_N in Hb. simpl. rewrite Hb. apply Nat2N.id.
  - apply Byte.of_N_None_iff in Hb. lia.
Qed.

Lemma last_replicate (r : list byte) (n : nat) (x d : byte) :
  List.last (r ++ replicate (S n) x) d = x.
Proof.
  assert (Hend : replicate n x ++ [x] = replicate (S n) x).
  { induction n as [| n IH]; [reflexivity |]. simpl in *. rewrite IH. reflexivity. }
  rewrite <- Hend, app_assoc. apply List.last_last.
Qed.

Lemma forallb_replicate (f : byte -> bool) (n : nat) (x : byte) :
  f x = true -> forallb f (replicate n x) = true.
Proof. intros Hx. induction n as [| n IH]; simpl; [reflexivity | rewrite Hx, IH; reflexivity]. Qed.

(** A partial block padded up to a whole block reads back as padded by the
    number of bytes that were added. *)
Lemma padding_of_padded (bs p : nat) (r : list byte) :
  (1 <= p)%nat -> (bs <= 255)%nat -> (length r + p = bs)%nat ->
  Native.padding_of bs (r ++ replicate p (Native.byte_of_nat p)) = Some p.
Proof.
  intros Hp Hbs Hr. unfold Native.padding_of.
  destruct p as [| p]; [lia |].
  rewrite last_replicate, nat_of_byte_of_nat by lia.
  replace (bs - S p)%nat with (length r) by lia.
  rewrite drop_app_length.
  rewrite forallb_replicate by (apply Byte.byte_dec_lb; reflexivity).
  destruct (Nat.ltb_spec bs (S p)); [lia |]. reflexivity.
Qed.

(** ** The reference library: one buffer through a context *)

Ltac ctx_simpl :=
  cbn [Native.ctx_cipher Native.ctx_encrypt Native.ctx_no_padding
       Native.ctx_key_len Native.ctx_key Native.ctx_iv Native.ctx_buf
       Native.ctx_final Native.set_stream Native.armed Native.set_no_padding
       Native.set_ctx_key_len Native.blank fst snd app] in *.

Section streams.
Variable d : Native.cipher_desc.
Variable a : EVP_CIPHER.
Variables key iv : list byte.
Hypothesis Hsound : Native.sound d.

Let bs : nat := Native.block_size d.
Let iv0 : list byte := if (Native.iv_len d =? 0)%nat then [] else iv.
Let E := Native.enc_block d key.
Let D := Native.dec_block d key.

Lemma bs_pos : (1 <= bs <= 255)%nat.
Proof. apply Hsound. Qed.

Lemma split_length (pt : list byte) :
  (length pt / bs * bs <= length pt)%nat
  /\ length (drop (length pt / bs * bs) pt) = (length pt mod bs)%nat
  /\ (length pt mod bs < bs)%nat.
Proof.
  pose proof bs_pos as Hb.
  pose proof (Nat.div_mod_eq (length pt) bs) as Hdm.
  pose proof (Nat.mod_upper_bound (length pt) bs ltac:(lia)) as Hm.
  rewrite length_drop. lia.
Qed.

(** Encrypting: the whole blocks come out of the update, the rest is
    buffered; the finalisation cannot fail. *)
Lemma encrypt_one_buffer (pt : list byte) :
  exists o1 c1,
    Native.cipher_update d (Native.armed a d true key iv) pt = (o1, c1)
    /\ Native.ctx_cipher c1 = Some a /\ Native.ctx_encrypt c1 = true
    /\ exists o2 c2,
        Native.cipher_final d c1 = inr (o2, c2)
        /\ o1 ++ o2 = Native.ciphertext a d key iv pt
        /\ Native.ctx_cipher c2 = Some a /\ Native.ctx_encrypt c2 = true
        /\ Native.ctx_key_len c2 = Native.key_len d
        /\ Native.ctx_no_padding c2 = false.
Proof.
  unfold Native.ciphertext, Native.cipher_update.
  cbn [Native.armed Native.ctx_encrypt]. unfold Native.block_update.
  destruct (Native.do_cipher _ _ _ _ _) as [o1 chain1].
  eexists o1, _. split; [reflexivity |].
  unfold Native.cipher_final, Native.encrypt_final.
  cbn [Native.set_stream Native.armed Native.ctx_encrypt Native.ctx_no_padding
       Native.ctx_buf Native.ctx_key Native.ctx_iv Native.ctx_final
       Native.ctx_cipher Native.ctx_key_len].
  split; [reflexivity |]. split; [reflexivity |].
  destruct (Native.block_size d =? 1)%nat.
  - do 2 eexists. repeat (split; [reflexivity |]). reflexivity.
  - destruct (Native.enc_block d key chain1 _) as [o2 chain2].
    do 2 eexists. repeat (split; [reflexivity |]). reflexivity.
Qed.

(** The ciphertext is the padded plaintext, block by block. *)
Lemma ciphertext_blocks (pt : list byte) :
  let n := (length pt / bs)%nat in
  let p := (bs - length pt mod bs)%nat in
  Native.ciphertext a d key iv pt =
  if (bs =? 1)%nat then (Native.do_cipher E bs n iv0 pt).1
  else (Native.do_cipher E bs (n + 1) iv0
          (pt ++ replicate p (Native.byte_of_nat p))).1.
Proof.
  intros n p. destruct (split_length pt) as (Hle & Hr & Hlt).
  fold n in Hle, Hr.
  unfold Native.ciphertext, Native.cipher_update, Native.block_update,
    Native.block_step.
  ctx_simpl. fold bs E iv0 n.
  destruct (Native.do_cipher E bs n iv0 pt) as [o1 chain1] eqn:Ho1.
  unfold Native.cipher_final, Native.encrypt_final.
  ctx_simpl. fold bs E. destruct (bs =? 1)%nat eqn:Hb1.
  - rewrite app_nil_r. reflexivity.
  - rewrite Hr. fold p.
    destruct (E chain1 _) as [o2 chain2] eqn:Ho2.
    rewrite <- (take_drop (n * bs) pt) at 1. rewrite <- app_assoc.
    rewrite do_cipher_app by (rewrite length_take; lia).
    rewrite <- (do_cipher_prefix E bs n iv0 (take (n * bs) pt) (drop (n * bs) pt))
      by (rewrite length_take; lia).
    rewrite take_drop, Ho1. cbn [fst snd].
    rewrite do_cipher_one, Ho2; [reflexivity |].
    rewrite length_app, length_replicate, Hr. unfold p. lia.
Qed.

Lemma ciphertext_length (pt : list byte) :
  length (Native.ciphertext a d key iv pt) =
  if (bs =? 1)%nat then length pt
  else ((length pt / bs + 1) * bs)%nat.
Proof.
  destruct Hsound as (Hb & Hlen & _).
  destruct (split_length pt) as (Hle & Hr & Hlt).
  pose proof (Nat.div_mod_eq (length pt) bs) as Hdm.
  rewrite ciphertext_blocks. destruct (bs =? 1)%nat eqn:Hb1.
  - apply Nat.eqb_eq in Hb1. rewrite do_cipher_length.
    + rewrite Hb1, Nat.div_1_r. lia.
    + intros c b. apply Hlen.
    + lia.
  - apply do_cipher_length; [intros c b; apply Hlen |].
    rewrite length_app, length_replicate. fold bs in Hb. lia.
Qed.

(** Decrypting the ciphertext: the update writes the whole blocks of the
    plaintext, the finalisation the rest, which is empty when the length of
    the plaintext is a multiple of the block size. *)
Lemma decrypt_one_buffer (pt : list byte) :
  let n := (length pt / bs)%nat in
  exists c1,
    Native.cipher_update d (Native.armed a d false key iv)
      (Native.ciphertext a d key iv pt) = (take (n * bs) pt, c1)
    /\ Native.ctx_cipher c1 = Some a /\ Native.ctx_encrypt c1 = false
    /\ Native.ctx_no_padding c1 = false
    /\ Native.cipher_final d c1 = inr (drop (n * bs) pt, c1).
Proof.
  intros n. pose proof bs_pos as Hb.
  destruct (split_length pt) as (Hle & Hr & Hlt). fold n in Hle, Hr.
  pose proof (Nat.div_mod_eq (length pt) bs) as Hdm. fold n in Hdm.
  pose proof (ciphertext_length pt) as Hlen.
  pose proof (ciphertext_blocks pt) as Hct. cbv zeta in Hct. fold n in Hct.
  set (p := (bs - length pt mod bs)%nat) in *.
  unfold Native.cipher_update, Native.decrypt_update. ctx_simpl.
  remember (Native.ciphertext a d key iv pt) as ct eqn:Ect.
  destruct (Nat.eqb_spec bs 1) as [Hb1 | Hb1].
  - (* a stream cipher: no padding is added or held back *)
    assert (Hn : (n * bs)%nat = length pt) by (unfold n; rewrite Hb1, Nat.div_1_r; lia).
    assert (Hdec : Native.do_cipher D bs n iv0 ct = (pt, (Native.do_cipher E bs n iv0 pt).2)).
    { rewrite Hct. apply do_cipher_dec_enc; [exact Hsound | fold bs; lia]. }
    assert (Hfin : forall c, Native.ctx_encrypt c = false ->
              Native.ctx_no_padding c = false ->
              Native.cipher_final d c = inr (drop (n * bs) pt, c)).
    { intros c He Hp. unfold Native.cipher_final, Native.decrypt_final.
      rewrite He, Hp. fold bs. rewrite Hb1. cbn [Nat.ltb Nat.leb].
      rewrite drop_ge by lia. reflexivity. }
    destruct ct as [| b l].
    + eexists. split; [| split; [| split; [| split]]].
      * rewrite take_ge by (simpl in Hlen; lia).
        destruct pt; [reflexivity | simpl in Hlen; lia].
      * reflexivity.
      * reflexivity.
      * reflexivity.
      * apply Hfin; reflexivity.
    + unfold Native.block_update, Native.block_step. ctx_simpl. fold bs D iv0.
      replace (length (b :: l) / bs)%nat with n by (rewrite Hlen; reflexivity).
      rewrite Hdec. ctx_simpl. fold bs.
      destruct (Nat.ltb_spec 1 bs) as [? | _]; [lia |]. cbn [andb].
      eexists. split; [| split; [| split; [| split]]].
      * rewrite take_ge by lia. reflexivity.
      * reflexivity.
      * reflexivity.
      * reflexivity.
      * apply Hfin; reflexivity.
  - (* a block cipher: the last block carries the padding *)
    assert (Hp : (1 <= p /\ length (drop (n * bs) pt) + p = bs)%nat)
      by (unfold p; lia).
    assert (Hpad : length (pt ++ replicate p (Native.byte_of_nat p))
                   = ((n + 1) * bs)%nat)
      by (rewrite length_app, length_replicate; lia).
    assert (Hdec : Native.do_cipher D bs (n + 1) iv0 ct
                   = (pt ++ replicate p (Native.byte_of_nat p),
                      (Native.do_cipher E bs (n + 1) iv0
                         (pt ++ replicate p (Native.byte_of_nat p))).2)).
    { rewrite Hct. apply do_cipher_dec_enc; [exact Hsound | exact Hpad]. }
    destruct ct as [| b l]; [simpl in Hlen; nia |].
    unfold Native.block_update, Native.block_step. ctx_simpl. fold bs D iv0.
    replace (length (b :: l) / bs)%nat with (n + 1)%nat
      by (rewrite Hlen, Nat.div_mul by lia; reflexivity).
    rewrite Hdec. ctx_simpl.
    rewrite (drop_ge (b :: l)) by (rewrite Hlen; lia).
    fold bs. destruct (Nat.ltb_spec 1 bs) as [_ | ?]; [| lia].
    cbn [length Nat.eqb andb].
    replace (length (pt ++ replicate p (Native.byte_of_nat p)) - bs)%nat
      with (n * bs)%nat by (rewrite Hpad; lia).
    rewrite take_app_le, drop_app_le by lia.
    eexists. split; [reflexivity |]. ctx_simpl.
    split; [reflexivity |]. split; [reflexivity |]. split; [reflexivity |].
    unfold Native.cipher_final, Native.decrypt_final. ctx_simpl. fold bs.
    destruct (Nat.ltb_spec 1 bs) as [_ | ?]; [| lia].
    rewrite padding_of_padded by lia.
    replace (bs - p)%nat with (length (drop (n * bs) pt)) by lia.
    rewrite take_app_length. reflexivity.
Qed.

End streams.

(** ** The reference library: what the member functions do on it *)

Section reference_runs.
Variable registry : EVP_CIPHER -> option Native.cipher_desc.
Variable a : EVP_CIPHER.
Variable d : Native.cipher_desc.
Hypothesis Hreg : registry a = Some d.

Variable this : cipher_context.
Variable alg : cipher_algorithm.
Hypothesis Halg : m_cipher alg = Some a.

Let N := Native.native registry.

Lemma lookup_put (w : Native.world) (h : handle) (c : Native.evp_cipher_ctx) :
  Native.contexts (Native.put w h c) !! h = Some c.
Proof. unfold Native.put. simpl. apply lookup_insert_eq. Qed.

Lemma lookup_put_ne (w : Native.world) (h h' : handle) (c : Native.evp_cipher_ctx) :
  h <> h' ->
  Native.contexts (Native.put w h c) !! h' = Native.contexts w !! h'.
Proof. intros Hne. unfold Native.put. simpl. apply lookup_insert_ne, Hne. Qed.

Lemma bound_lookup (w : Native.world) (c : Native.evp_cipher_ctx) :
  Native.contexts w !! m_ctx this = Some c ->
  Native.ctx_cipher c = Some a ->
  Native.bound registry w (m_ctx this) = Some (c, d).
Proof.
  intros Hc Ha. unfold Native.bound. rewrite Hc. simpl. rewrite Ha. simpl.
  rewrite Hreg. reflexivity.
Qed.

Lemma run_ctor (w : Native.world) :
  run N (cipher_context_ctor this) w =
  RunResult (Returned tt) (Native.put w (m_ctx this) Native.blank)
    [EVP_CIPHER_CTX_init (m_ctx this)].
Proof. reflexivity. Qed.

Lemma cipher_init_armed (c : Native.evp_cipher_ctx) (key iv : list byte) (enc : Z) :
  Native.valid_key_iv d key iv ->
  Native.unconfigured a d c ->
  Native.cipher_init registry c (Some a) key iv enc =
  inr (Native.armed a d
         (if enc =? -1 then Native.ctx_encrypt c else negb (enc =? 0)) key iv).
Proof.
  intros [Hkey Hiv] Hc. unfold Native.cipher_init. rewrite Hreg.
  assert (Hk : (if bool_decide (Native.ctx_cipher c = Some a)
                then Native.ctx_key_len c else Native.key_len d)
               = Native.key_len d).
  { case_bool_decide as Hb; [apply Hc, Hb | reflexivity]. }
  assert (Hp : (if bool_decide (Native.ctx_cipher c = Some a)
                then Native.ctx_no_padding c else false) = false).
  { case_bool_decide as Hb; [apply Hc, Hb | reflexivity]. }
  rewrite Hk, Hp, Hkey, Nat.eqb_refl. cbn [negb]. unfold Native.armed.
  destruct Hiv as [Hiv | Hiv].
  - rewrite Hiv. reflexivity.
  - rewrite Hiv, Nat.eqb_refl, andb_false_r. reflexivity.
Qed.

Lemma run_initialize (w : Native.world) (c : Native.evp_cipher_ctx)
    (direction : cipher_direction) (key iv : list byte) (impl : option ENGINE) :
  Native.contexts w !! m_ctx this = Some c ->
  Native.valid_key_iv d key iv ->
  Native.unconfigured a d c ->
  run N (initialize this alg direction key iv impl) w =
  RunResult (Returned tt)
    (Native.put w (m_ctx this)
       (Native.armed a d
          (match direction with
           | unchanged => Native.ctx_encrypt c
           | decrypt => false
           | encrypt => true
           end) key iv))
    [EVP_CipherInit_ex (m_ctx this) (Some a) impl key iv
       (direction_to_int direction)].
Proof.
  intros Hw Hv Hc. unfold initialize, call, mbind, prog_bind, N.
  rewrite Halg. cbn [bind run Native.native]. rewrite Hw.
  rewrite (cipher_init_armed c key iv _ Hv Hc).
  destruct direction; reflexivity.
Qed.

Lemma run_update (w : Native.world) (c : Native.evp_cipher_ctx) (inp : list byte) :
  Native.contexts w !! m_ctx this = Some c ->
  Native.ctx_cipher c = Some a ->
  run N (update this inp) w =
  RunResult (Returned (Native.cipher_update d c inp).1)
    (Native.put w (m_ctx this) (Native.cipher_update d c inp).2)
    [EVP_CipherUpdate (m_ctx this) inp].
Proof.
  intros Hw Ha. unfold update, call, mbind, prog_bind, N.
  cbn [bind run Native.native]. rewrite (bound_lookup w c Hw Ha).
  destruct (Native.cipher_update d c inp). reflexivity.
Qed.

Lemma run_set_padding (w : Native.world) (c : Native.evp_cipher_ctx) (enabled : bool) :
  Native.contexts w !! m_ctx this = Some c ->
  run N (set_padding this enabled) w =
  RunResult (Returned tt)
    (Native.put w (m_ctx this) (Native.set_no_padding c (negb enabled)))
    [EVP_CIPHER_CTX_set_padding (m_ctx this) (bool_to_int enabled)].
Proof.
  intros Hw. unfold set_padding, call, mbind, prog_bind, N.
  cbn [bind run Native.native]. rewrite Hw. destruct enabled; reflexivity.
Qed.

(** A finalisation the library accepts: zero bytes on a context that
    decrypts with padding are the [PaddingError]. *)
Lemma run_finalize_accepted (w : Native.world) (c c' : Native.evp_cipher_ctx)
    (out : list byte) :
  Native.contexts w !! m_ctx this = Some c ->
  Native.ctx_cipher c = Some a ->
  Native.cipher_final d c = inr (out, c') ->
  result_of (run N (finalize this) w) =
    (if (length out =? 0)%nat && negb (Native.ctx_encrypt c')
        && negb (Native.ctx_no_padding c')
     then Raised PaddingError else Returned out)
  /\ world_of (run N (finalize this) w) = Native.put w (m_ctx this) c'.
Proof.
  intros Hw Ha Hf. unfold finalize, call, mbind, prog_bind, N.
  cbn [bind run Native.native]. rewrite (bound_lookup w c Hw Ha), Hf.
  cbn [bind run throw_error_if_not int_to_bool Z.eqb negb fst snd
       Native.native].
  rewrite lookup_put.
  cbn [bind run fst snd Native.native]. rewrite lookup_put.
  destruct (Native.ctx_encrypt c'), (Native.ctx_no_padding c'),
    (length out =? 0)%nat; split; reflexivity.
Qed.

(** A finalisation the library rejects: the oldest pending error code
    comes out as a [CryptoError]. *)
Lemma run_finalize_rejected (w : Native.world) (c : Native.evp_cipher_ctx)
    (code : Z) :
  Native.contexts w !! m_ctx this = Some c ->
  Native.ctx_cipher c = Some a ->
  Native.cipher_final d c = inl code ->
  result_of (run N (finalize this) w)
  = Raised (CryptoError (hd code (Native.errors w))).
Proof.
  intros Hw Ha Hf. unfold finalize, call, mbind, prog_bind, N.
  cbn [bind run Native.native]. rewrite (bound_lookup w c Hw Ha), Hf.
  cbn [bind run throw_error_if_not throw_error int_to_bool Z.eqb negb fst snd
       Native.native Native.push_error Native.errors].
  destruct (Native.errors w); reflexivity.
Qed.

End reference_runs.

(** ** The reference library: the key length *)

Section reference_key_length.
Variable registry : EVP_CIPHER -> option Native.cipher_desc.
Variable a : EVP_CIPHER.
Variable d : Native.cipher_desc.
Hypothesis Hreg : registry a = Some d.

Variable this : cipher_context.

Let N := Native.native registry.



End reference_key_length.



Section reference_streams.
Variable registry : EVP_CIPHER -> option Native.cipher_desc.
Variable a : EVP_CIPHER.
Variable d : Native.cipher_desc.
Hypothesis Hreg : registry a = Some d.
Hypothesis Hsound : Native.sound d.

Variable alg : cipher_algorithm.
Hypothesis Halg : m_cipher alg = Some a.

Variables key iv : list byte.
Hypothesis Hvalid : Native.valid_key_iv d key iv.

Let N := Native.native registry.

Lemma run_encrypt_stream (this : cipher_context) (pt : list byte)
    (w : Native.world) (c : Native.evp_cipher_ctx) :
  Native.contexts w !! m_ctx this = Some c -> Native.unconfigured a d c ->
  let r := run N (encrypt_stream this alg key iv pt) w in
  result_of r = Returned (Native.ciphertext a d key iv pt)
  /\ (exists c2, Native.contexts (world_of r) !! m_ctx this = Some c2
                 /\ Native.unconfigured a d c2)
  /\ (forall h, h <> m_ctx this ->
        Native.contexts (world_of r) !! h = Native.contexts w !! h).
Proof.
  intros Hw Hc r. subst r. unfold encrypt_stream.
  destruct (encrypt_one_buffer d a key iv pt)
    as (o1 & c1 & Hu & Ha1 & He1 & o2 & c2 & Hf & Hct & Ha2 & He2 & Hk2 & Hp2).
  rewrite run_bind, (run_initialize registry a d Hreg this alg Halg w c) by assumption.
  cbn [result_of world_of trace_of].
  rewrite run_bind, (run_update registry a d Hreg this _ (Native.armed a d true key iv))
    by (try apply lookup_put; reflexivity).
  rewrite Hu. cbn [result_of world_of trace_of fst snd].
  rewrite run_bind.
  destruct (run_finalize_accepted registry a d Hreg this
              (Native.put (Native.put w (m_ctx this) (Native.armed a d true key iv))
                 (m_ctx this) c1) c1 c2 o2) as [Hr Hwf];
    [apply lookup_put | exact Ha1 | exact Hf |].
  fold N in Hr, Hwf. rewrite Hr, Hwf, He2, andb_false_r.
  cbn [negb andb result_of world_of trace_of run].
  split; [rewrite Hct; reflexivity | split].
  - exists c2. split; [apply lookup_put |]. intros _. split; assumption.
  - intros h Hh.
    rewrite !lookup_put_ne by (intros Heq; apply Hh; symmetry; exact Heq).
    reflexivity.
Qed.

Lemma run_decrypt_stream (this : cipher_context) (pt : list byte)
    (w : Native.world) (c : Native.evp_cipher_ctx) :
  Native.contexts w !! m_ctx this = Some c -> Native.unconfigured a d c ->
  result_of (run N (decrypt_stream this alg key iv
                      (Native.ciphertext a d key iv pt)) w)
  = if (length pt mod Native.block_size d =? 0)%nat
    then Raised PaddingError else Returned pt.
Proof.
  intros Hw Hc. unfold decrypt_stream.
  destruct (decrypt_one_buffer d a key iv Hsound pt)
    as (c1 & Hu & Ha1 & He1 & Hp1 & Hf).
  destruct (split_length d Hsound pt) as (_ & Hr & _).
  rewrite run_bind, (run_initialize registry a d Hreg this alg Halg w c) by assumption.
  cbn [result_of world_of trace_of].
  rewrite run_bind, (run_update registry a d Hreg this _ (Native.armed a d false key iv))
    by (try apply lookup_put; reflexivity).
  rewrite Hu. cbn [result_of world_of trace_of fst snd].
  rewrite run_bind.
  destruct (run_finalize_accepted registry a d Hreg this
              (Native.put (Native.put w (m_ctx this) (Native.armed a d false key iv))
                 (m_ctx this) c1) c1 c1 _ ltac:(apply lookup_put) Ha1 Hf)
    as [Hres _].
  fold N in Hres. rewrite Hres, He1, Hp1, Hr. cbn [negb]. rewrite !andb_true_r.
  destruct (length pt mod Native.block_size d =? 0)%nat; [reflexivity |].
  cbn [result_of world_of trace_of run]. rewrite take_drop. reflexivity.
Qed.

End reference_streams.

(** ** The reference library: a stream without padding *)

Lemma block_update_fields (d : Native.cipher_desc) (c : Native.evp_cipher_ctx)
    (inp : list byte) :
  (1 <= Native.block_size d)%nat ->
  let c' := (Native.block_update d c inp).2 in
  Native.ctx_cipher c' = Native.ctx_cipher c
  /\ Native.ctx_encrypt c' = Native.ctx_encrypt c
  /\ Native.ctx_no_padding c' = Native.ctx_no_padding c
  /\ length (Native.ctx_buf c')
     = ((length (Native.ctx_buf c) + length inp) mod Native.block_size d)%nat.
Proof.
  intros Hbs. unfold Native.block_update.
  destruct (Native.do_cipher _ _ _ _ _) as [out chain]. ctx_simpl.
  repeat (split; [reflexivity |]).
  rewrite length_drop, length_app.
  pose proof (Nat.div_mod_eq (length (Native.ctx_buf c) + length inp)
                (Native.block_size d)).
  lia.
Qed.

Lemma cipher_update_unpadded (d : Native.cipher_desc) (c : Native.evp_cipher_ctx)
    (inp : list byte) :
  Native.ctx_no_padding c = true ->
  Native.cipher_update d c inp = Native.block_update d c inp.
Proof.
  intros Hp. unfold Native.cipher_update, Native.decrypt_update. rewrite Hp.
  destruct (Native.ctx_encrypt c); reflexivity.
Qed.

(** Without padding, a partial block at the finalisation is an error, in
    both directions. *)
Lemma cipher_final_partial_block (d : Native.cipher_desc) (c : Native.evp_cipher_ctx) :
  Native.ctx_no_padding c = true ->
  (0 < length (Native.ctx_buf c) < Native.block_size d)%nat ->
  Native.cipher_final d c = inl Native.EVP_R_DATA_NOT_MULTIPLE_OF_BLOCK_LENGTH.
Proof.
  intros Hp Hbuf. unfold Native.cipher_final, Native.encrypt_final,
    Native.decrypt_final. rewrite Hp.
  destruct (Nat.eqb_spec (Native.block_size d) 1) as [Hb | _]; [lia |].
  destruct (Native.ctx_buf c); [simpl in Hbuf; lia |].
  destruct (Native.ctx_encrypt c); reflexivity.
Qed.

Section reference_unpadded.
Variable registry : EVP_CIPHER -> option Native.cipher_desc.
Variable a : EVP_CIPHER.
Variable d : Native.cipher_desc.
Hypothesis Hreg : registry a = Some d.
Hypothesis Hbs : (1 <= Native.block_size d)%nat.
Variable this : cipher_context.

Let N := Native.native registry.

Lemma run_update_all (chunks : list (list byte)) (w : Native.world)
    (c : Native.evp_cipher_ctx) :
  Native.contexts w !! m_ctx this = Some c ->
  Native.ctx_cipher c = Some a ->
  Native.ctx_no_padding c = true ->
  (length (Native.ctx_buf c) < Native.block_size d)%nat ->
  let r := run N (update_all this chunks) w in
  exists outs c',
    result_of r = Returned outs
    /\ Native.contexts (world_of r) !! m_ctx this = Some c'
    /\ Native.errors (world_of r) = Native.errors w
    /\ Native.ctx_cipher c' = Some a
    /\ Native.ctx_no_padding c' = true
    /\ length (Native.ctx_buf c')
       = ((length (Native.ctx_buf c) + length (concat chunks))
          mod Native.block_size d)%nat.
Proof.
  unfold N.
  revert w c. induction chunks as [| inp chunks IH]; intros w c Hw Ha Hp Hbuf.
  - exists [], c. cbn [update_all run result_of world_of concat length].
    rewrite Nat.add_0_r, Nat.mod_small by exact Hbuf. repeat split; assumption.
  - cbn [update_all].
    rewrite run_bind, (run_update registry a d Hreg this w c inp Hw Ha).
    cbn [result_of world_of trace_of]. rewrite cipher_update_unpadded by exact Hp.
    destruct (block_update_fields d c inp Hbs) as (Ha' & _ & Hp' & Hlen').
    set (c1 := (Native.block_update d c inp).2) in *.
    destruct (IH (Native.put w (m_ctx this) c1) c1) as (outs & c' & Hr & Hw' & He & Hc' & Hq' & Hl');
      [apply lookup_put | congruence | congruence
      | rewrite Hlen'; apply Nat.mod_upper_bound; lia |].
    rewrite run_bind, Hr. cbn [result_of world_of trace_of run].
    eexists _, c'. split; [reflexivity |]. split; [exact Hw' |].
    split; [exact He |]. split; [exact Hc' |]. split; [exact Hq' |].
    rewrite Hl', Hlen'. cbn [concat]. rewrite length_app.
    rewrite Nat.Div0.add_mod_idemp_l. f_equal. lia.
Qed.

End reference_unpadded.

(** ** The small registry *)

Lemma byte_xor_involutive (x k : byte) :
  Native.byte_xor (Native.byte_xor x k) k = x.
Proof.
  unfold Native.byte_xor.
  destruct (Byte.to_bits x) as (x0 & x1 & x2 & x3 & x4 & x5 & x6 & x7) eqn:Hx.
  destruct (Byte.to_bits k) as (k0 & k1 & k2 & k3 & k4 & k5 & k6 & k7) eqn:Hk.
  rewrite Byte.to_bits_of_bits.
  rewrite !Bool.xorb_assoc, !Bool.xorb_nilpotent, !Bool.xorb_false_r.
  rewrite <- Hx. apply Byte.of_bits_to_bits.
Qed.

Lemma xor_with_length (pad block : list byte) :
  length (Native.xor_with pad block) = length block.
Proof.
  revert pad. induction block as [| x block IH]; intros pad; [reflexivity |].
  destruct pad; simpl; rewrite IH; reflexivity.
Qed.

Lemma xor_with_involutive (pad block : list byte) :
  Native.xor_with pad (Native.xor_with pad block) = block.
Proof.
  revert pad. induction block as [| x block IH]; intros pad; [reflexivity |].
  destruct pad; simpl; rewrite IH; [| rewrite byte_xor_involutive]; reflexivity.
Qed.

Lemma toy_cbc_sound : Native.sound Native.toy_cbc.
Proof.
  split; [simpl; lia | split]; intros key chain b Hb; simpl.
  - rewrite !xor_with_length. exact Hb.
  - rewrite !xor_with_involutive. reflexivity.
Qed.

Lemma toy_stream_sound : Native.sound Native.toy_stream.
Proof.
  split; [simpl; lia | split]; intros key chain b Hb; simpl.
  - rewrite xor_with_length. exact Hb.
  - rewrite xor_with_involutive. reflexivity.
Qed.

(** ** Streams through the adapter *)

(** What the zero-byte rule of section 7 in [finalize] makes of a round
    trip.  On the reference library, for every algorithm whose block
    decryption undoes its block encryption and every key and IV it accepts,
    encrypting a plaintext with [initialize], [update], [finalize] and
    decrypting the result the same way gives back the plaintext exactly when
    the length of the plaintext is not a multiple of the block size; when it
    is (the empty plaintext, one block, ten blocks, and every plaintext of a
    stream cipher) the decrypting [update] has returned the whole plaintext
    ([decrypt_one_buffer]) and the decrypting [finalize] finds that no byte
    was written and raises [PaddingError]. *)
Theorem round_trip_up_to_padding_error
    (registry : EVP_CIPHER -> option Native.cipher_desc)
    (a : EVP_CIPHER) (d : Native.cipher_desc) (alg : cipher_algorithm)
    (enc_ctx dec_ctx : cipher_context) (key iv plaintext : list byte)
    (w : Native.world) :
  registry a = Some d ->
  m_cipher alg = Some a ->
  Native.sound d ->
  Native.valid_key_iv d key iv ->
  result_of (run (Native.native registry)
               (round_trip enc_ctx dec_ctx alg key iv plaintext) w)
  = if (length plaintext mod Native.block_size d =? 0)%nat
    then Raised PaddingError
    else Returned plaintext.
Proof.
  intros Hreg Halg Hsound Hvalid. unfold round_trip.
  rewrite run_bind, run_ctor. cbn [result_of world_of trace_of].
  rewrite run_bind, run_ctor. cbn [result_of world_of trace_of].
  set (w2 := Native.put (Native.put w (m_ctx enc_ctx) Native.blank)
               (m_ctx dec_ctx) Native.blank).
  assert (Hblank : Native.unconfigured a d Native.blank) by (intros [=]).
  assert (Henc : Native.contexts w2 !! m_ctx enc_ctx = Some Native.blank).
  { unfold w2. destruct (decide (m_ctx dec_ctx = m_ctx enc_ctx)) as [-> | Hne].
    - apply lookup_put.
    - rewrite lookup_put_ne by exact Hne. apply lookup_put. }
  destruct (run_encrypt_stream registry a d Hreg alg Halg key iv Hvalid
              enc_ctx plaintext w2 Native.blank Henc Hblank)
    as (Hres & (c2 & Hc2 & Hfresh) & Hother).
  rewrite run_bind, Hres. cbn [result_of world_of trace_of].
  set (w3 := world_of _) in *.
  assert (Hdec : exists c, Native.contexts w3 !! m_ctx dec_ctx = Some c
                           /\ Native.unconfigured a d c).
  { destruct (decide (m_ctx dec_ctx = m_ctx enc_ctx)) as [-> | Hne].
    - exists c2. split; assumption.
    - exists Native.blank. split; [| exact Hblank].
      rewrite Hother by exact Hne. apply lookup_put. }
  destruct Hdec as (c & Hc & Hcf).
  pose proof (run_decrypt_stream registry a d Hreg Hsound alg Halg key iv Hvalid
                dec_ctx plaintext w3 c Hc Hcf) as Hrun.
  destruct (run _ (decrypt_stream _ _ _ _ _) w3) as [res w4 t]. simpl in *.
  exact Hrun.
Qed.

Lemma round_trip_up_to_padding_error_witness :
  result_of
    (run (Native.native Native.toy_registry)
       (round_trip Native.ctx_a Native.ctx_b Native.cbc Native.key2 Native.iv4
          ["p"; "l"; "a"; "i"; "n"]%byte)
       Native.empty_world)
  = Returned ["p"; "l"; "a"; "i"; "n"]%byte.
Proof.
  apply (round_trip_up_to_padding_error Native.toy_registry 1%N Native.toy_cbc
           Native.cbc Native.ctx_a Native.ctx_b Native.key2 Native.iv4
           ["p"; "l"; "a"; "i"; "n"]%byte Native.empty_world).
  - reflexivity.
  - reflexivity.
  - exact toy_cbc_sound.
  - split; [reflexivity | right; reflexivity].
Defined.

(** Under that rule, for the empty plaintext, decrypting what the
    encryption wrote raises [PaddingError]. *)
Lemma round_trip_of_empty_plaintext_raises :
  result_of
    (run (Native.native Native.toy_registry)
       (round_trip Native.ctx_a Native.ctx_b Native.cbc Native.key2 Native.iv4 [])
       Native.empty_world)
  = Raised PaddingError
  /\ result_of
       (run (Native.native Native.toy_registry)
          (round_trip Native.ctx_a Native.ctx_b Native.cbc Native.key2 Native.iv4 [])
          Native.empty_world)
     <> Returned [].
Proof. split; [vm_compute; reflexivity | vm_compute; discriminate]. Qed.

(** The lengths the round trip is to be tried on, for blocks of four bytes:
    the plaintext comes back for 1, 3 and 5 bytes; for 0, 4 and 40 bytes the
    decrypting [finalize] raises [PaddingError]. *)
Example round_trip_at_the_listed_lengths :
  map (fun n =>
         result_of
           (run (Native.native Native.toy_registry)
              (round_trip Native.ctx_a Native.ctx_b Native.cbc Native.key2
                 Native.iv4 (replicate n "A"%byte))
              Native.empty_world))
    [0; 1; 3; 4; 5; 40]%nat
  = [Raised PaddingError;
     Returned (replicate 1 "A"%byte);
     Returned (replicate 3 "A"%byte);
     Raised PaddingError;
     Returned (replicate 5 "A"%byte);
     Raised PaddingError].
Proof. vm_compute. reflexivity. Qed.

(** A stream cipher never pads, so its decrypting [finalize] never writes
    a byte. *)
Example round_trip_of_a_stream_cipher :
  result_of
    (run (Native.native Native.toy_registry)
       (round_trip Native.ctx_a Native.ctx_b Native.stream Native.key2 []
          ["x"; "y"; "z"]%byte)
       Native.empty_world)
  = Raised PaddingError.
Proof. vm_compute. reflexivity. Qed.

(** C5.  On the reference library, a context that is bound to an algorithm
    with a key and an IV it accepts, has padding disabled and is fed input
    whose total length is not a multiple of the block size, in any pieces and
    either direction, fails at [finalize] with a [CryptoError]: the error the
    library raised for the partial block, or an older one still pending.
    Nothing is returned. *)
Theorem unpadded_partial_block_is_crypto_error
    (registry : EVP_CIPHER -> option Native.cipher_desc)
    (a : EVP_CIPHER) (d : Native.cipher_desc) (alg : cipher_algorithm)
    (this : cipher_context) (direction : cipher_direction)
    (key iv : list byte) (chunks : list (list byte)) (w : Native.world) :
  registry a = Some d ->
  m_cipher alg = Some a ->
  (1 <= Native.block_size d)%nat ->
  Native.valid_key_iv d key iv ->
  (length (concat chunks) mod Native.block_size d)%nat <> 0%nat ->
  result_of (run (Native.native registry)
               (unpadded_stream this alg direction key iv chunks) w)
  = Raised (CryptoError
              (hd Native.EVP_R_DATA_NOT_MULTIPLE_OF_BLOCK_LENGTH
                 (Native.errors w))).
Proof.
  intros Hreg Halg Hbs Hvalid Hmod. unfold unpadded_stream.
  rewrite run_bind, run_ctor. cbn [result_of world_of trace_of].
  rewrite run_bind,
    (run_initialize registry a d Hreg this alg Halg _ Native.blank)
    by (try apply lookup_put; try exact Hvalid; intros [=]).
  cbn [result_of world_of trace_of].
  rewrite run_bind, (run_set_padding registry this _ _ false)
    by apply lookup_put.
  cbn [result_of world_of trace_of negb].
  set (c0 := Native.set_no_padding _ true).
  set (w0 := Native.put _ (m_ctx this) c0).
  destruct (run_update_all registry a d Hreg Hbs this chunks w0 c0)
    as (outs & c' & Hr & Hw' & He & Hc' & Hp' & Hl');
    [apply lookup_put | reflexivity | reflexivity | unfold c0; simpl; lia |].
  rewrite run_bind, Hr. cbn [result_of world_of trace_of].
  rewrite run_bind.
  rewrite (run_finalize_rejected registry a d Hreg this _ c'
             Native.EVP_R_DATA_NOT_MULTIPLE_OF_BLOCK_LENGTH Hw' Hc').
  - cbn [result_of]. rewrite He. reflexivity.
  - apply cipher_final_partial_block; [exact Hp' |].
    rewrite Hl'. unfold c0. ctx_simpl. cbn [length Nat.add].
    pose proof (Nat.mod_upper_bound (length (concat chunks))
                  (Native.block_size d)). lia.
Qed.

Lemma unpadded_partial_block_is_crypto_error_witness :
  result_of
    (run (Native.native Native.toy_registry)
       (unpadded_stream Native.ctx_a Native.cbc encrypt Native.key2 Native.iv4
          [["a"; "b"]; ["c"]]%byte)
       Native.empty_world)
  = Raised (CryptoError Native.EVP_R_DATA_NOT_MULTIPLE_OF_BLOCK_LENGTH).
Proof.
  apply (unpadded_partial_block_is_crypto_error Native.toy_registry 1%N
           Native.toy_cbc Native.cbc Native.ctx_a encrypt Native.key2 Native.iv4
           [["a"; "b"]; ["c"]]%byte Native.empty_world).
  - reflexivity.
  - reflexivity.
  - simpl. lia.
  - split; [reflexivity | right; reflexivity].
  - simpl. lia.
Defined.

(** * The sample programs *)

(** ** The passphrase callback *)

Lemma size_t_to_int_small (n : Z) : 0 <= n < 2 ^ 31 -> size_t_to_int n = n.
Proof. intros Hn. unfold size_t_to_int. rewrite Z.mod_small; lia. Qed.

Lemma int_to_size_t_small (n : Z) : 0 <= n < 2 ^ 64 -> int_to_size_t n = n.
Proof. intros Hn. unfold int_to_size_t. apply Z.mod_small. exact Hn. Qed.

Lemma int_to_size_t_negative (n : Z) :
  - 2 ^ 31 <= n < 0 -> int_to_size_t n = n + 2 ^ 64.
Proof.
  intros Hn. unfold int_to_size_t.
  symmetry. apply Z.mod_unique with (q := -1); lia.
Qed.

Lemma length_list_ascii_of_string (s : string) :
  length (String.list_ascii_of_string s) = String.length s.
Proof. induction s as [| a s IH]; simpl; [reflexivity | rewrite IH; reflexivity]. Qed.

(** The value and the buffer the callback returns. *)
Lemma callback_cases (buf : list Ascii.ascii) (buf_len rwflag : Z)
    (c : Samples.console) :
  (Samples.pem_passphrase_callback buf buf_len rwflag c).1 =
  if Samples.rejects buf_len rwflag c then (0, buf)
  else (size_t_to_int (Z.of_nat (String.length (Samples.first_line c))),
        Samples.copy_to (Samples.first_line c) buf).
Proof.
  unfold Samples.pem_passphrase_callback, Samples.rejects, Samples.first_line,
    Samples.second_line, Samples.getline, Samples.put.
  destruct c as [[| p [| q rest]] out]; cbn [Samples.cin Samples.written hd tl];
    repeat case_bool_decide; try reflexivity; try congruence;
    cbn [orb]; destruct (_ <? _); try reflexivity;
    destruct (rwflag =? 0); cbn [negb andb orb Samples.cin Samples.written hd tl];
    repeat case_bool_decide; try reflexivity; congruence.
Qed.

(** The console the callback leaves: the lines it read, and one message on
    [std::cerr] exactly when it rejects. *)
Lemma callback_console (buf : list Ascii.ascii) (buf_len rwflag : Z)
    (c : Samples.console) :
  let c' := (Samples.pem_passphrase_callback buf buf_len rwflag c).2 in
  Samples.cin c'
  = (if bool_decide (Samples.first_line c = "")
        || (int_to_size_t buf_len <? Z.of_nat (String.length (Samples.first_line c)))
        || (rwflag =? 0)
     then tl (Samples.cin c) else tl (tl (Samples.cin c)))
  /\ exists msgs,
       Samples.errors_written c' = Samples.errors_written c ++ msgs
       /\ length msgs = (if Samples.rejects buf_len rwflag c then 1 else 0)%nat.
Proof.
  unfold Samples.pem_passphrase_callback, Samples.rejects, Samples.first_line,
    Samples.second_line, Samples.getline, Samples.put, Samples.errors_written.
  destruct c as [[| p [| q rest]] out]; cbn [Samples.cin Samples.written hd tl];
    repeat case_bool_decide; try congruence; cbn [orb];
    try destruct (_ <? _); cbn [orb];
    try destruct (rwflag =? 0);
    cbn [negb andb orb Samples.cin Samples.written hd tl snd];
    repeat case_bool_decide; try congruence;
    cbn [negb andb orb Samples.cin Samples.written hd tl snd];
    (split; [reflexivity |]);
    rewrite ?omap_app; cbn [omap list_omap fst snd app];
    rewrite ?app_nil_r;
    first [ eexists; split; [reflexivity | reflexivity]
          | exists []; split; [rewrite app_nil_r; reflexivity | reflexivity] ].
Qed.

Lemma rejects_false_iff (buf_len rwflag : Z) (c : Samples.console) :
  0 <= buf_len < 2 ^ 31 ->
  Samples.rejects buf_len rwflag c = false <-> Samples.accepted buf_len rwflag c.
Proof.
  intros Hb. unfold Samples.rejects, Samples.accepted.
  rewrite int_to_size_t_small by lia.
  rewrite !orb_false_iff, andb_false_iff, !negb_false_iff,
    !bool_decide_eq_false, bool_decide_eq_true, Z.ltb_ge, Z.eqb_eq.
  tauto.
Qed.

(** X4.  With a buffer length an [int] can hold and that is not negative,
    the callback gives the length of the first line and copies the line over
    the beginning of the buffer when the line is not empty, fits, and is
    confirmed by the second line where a confirmation is asked for; in every
    other case it gives 0 and leaves the buffer as it was. *)
Theorem callback_accepts_or_rejects (buf : list Ascii.ascii)
    (buf_len rwflag : Z) (c : Samples.console) :
  0 <= buf_len < 2 ^ 31 ->
  let r := (Samples.pem_passphrase_callback buf buf_len rwflag c).1 in
  (Samples.accepted buf_len rwflag c ->
     r.1 = Z.of_nat (String.length (Samples.first_line c))
     /\ 0 < r.1
     /\ r.2 = Samples.copy_to (Samples.first_line c) buf)
  /\ (~ Samples.accepted buf_len rwflag c -> r.1 = 0 /\ r.2 = buf).
Proof.
  intros Hb r. subst r. rewrite callback_cases.
  pose proof (rejects_false_iff buf_len rwflag c Hb) as Hiff.
  destruct (Samples.rejects buf_len rwflag c); split.
  - intros Ha. apply Hiff in Ha. discriminate Ha.
  - intros _. split; reflexivity.
  - intros (Hne & Hlen & _). cbn [fst snd].
    rewrite size_t_to_int_small by lia.
    split; [reflexivity | split; [| reflexivity]].
    destruct (Samples.first_line c); [congruence | simpl; lia].
  - intros Hn. exfalso. apply Hn, Hiff. reflexivity.
Qed.

Lemma callback_accepts_or_rejects_witness :
  (Samples.pem_passphrase_callback Samples.dots 8 1
     (Samples.typed ["abc"; "abc"])).1.1 = 3.
Proof.
  assert (Ha : Samples.accepted 8 1 (Samples.typed ["abc"; "abc"])).
  { split; [discriminate | split; [simpl; lia | right; reflexivity]]. }
  destruct (callback_accepts_or_rejects Samples.dots 8 1
              (Samples.typed ["abc"; "abc"]) ltac:(lia)) as [H _].
  exact (proj1 (H Ha)).
Defined.

(** X5.  With a buffer of at least [buf_len] characters, [buf_len] not
    negative, the callback gives a value between 0 and [buf_len], writes
    nothing behind the buffer, and leaves every character from that position
    on as it was: no terminator is written. *)
Theorem callback_stays_in_buffer (buf : list Ascii.ascii)
    (buf_len rwflag : Z) (c : Samples.console) :
  0 <= buf_len < 2 ^ 31 ->
  buf_len <= Z.of_nat (length buf) ->
  let r := (Samples.pem_passphrase_callback buf buf_len rwflag c).1 in
  0 <= r.1 <= buf_len
  /\ length r.2 = length buf
  /\ drop (Z.to_nat r.1) r.2 = drop (Z.to_nat r.1) buf.
Proof.
  intros Hb Hcap r. subst r. rewrite callback_cases.
  pose proof (rejects_false_iff buf_len rwflag c Hb) as Hiff.
  destruct (Samples.rejects buf_len rwflag c); cbn [fst snd].
  - repeat split; lia.
  - destruct (proj1 Hiff eq_refl) as (_ & Hlen & _).
    rewrite size_t_to_int_small by lia. rewrite Nat2Z.id.
    unfold Samples.copy_to. split; [lia | split].
    + rewrite length_app, length_drop, length_list_ascii_of_string. lia.
    + rewrite drop_app_length' by (rewrite length_list_ascii_of_string; reflexivity).
      reflexivity.
Qed.

Lemma callback_stays_in_buffer_witness :
  length (Samples.pem_passphrase_callback Samples.dots 8 0
            (Samples.typed ["abc"])).1.2 = 8%nat.
Proof.
  exact (proj1 (proj2 (callback_stays_in_buffer Samples.dots 8 0
                         (Samples.typed ["abc"]) ltac:(lia) ltac:(simpl; lia)))).
Defined.

(** X6.  The callback reads one line when it rejects the first line or no
    confirmation is asked for, and two lines otherwise; it writes one message
    to [std::cerr] when it rejects the input and none when it accepts it. *)
Theorem callback_reads_and_reports (buf : list Ascii.ascii)
    (buf_len rwflag : Z) (c : Samples.console) :
  let c' := (Samples.pem_passphrase_callback buf buf_len rwflag c).2 in
  Samples.cin c'
  = (if bool_decide (Samples.first_line c = "")
        || (int_to_size_t buf_len <? Z.of_nat (String.length (Samples.first_line c)))
        || (rwflag =? 0)
     then tl (Samples.cin c) else tl (tl (Samples.cin c)))
  /\ length (Samples.errors_written c')
     = (length (Samples.errors_written c)
        + (if Samples.rejects buf_len rwflag c then 1 else 0))%nat
  /\ ((Samples.pem_passphrase_callback buf buf_len rwflag c).1.1 <> 0 ->
      Samples.errors_written c' = Samples.errors_written c).
Proof.
  intros c'. destruct (callback_console buf buf_len rwflag c)
    as (Hcin & msgs & Herr & Hlen).
  fold c' in Hcin, Herr. split; [exact Hcin | split].
  - rewrite Herr, length_app, Hlen. reflexivity.
  - rewrite callback_cases.
    destruct (Samples.rejects buf_len rwflag c); cbn [fst]; [congruence |].
    intros _. destruct msgs; [| discriminate Hlen].
    rewrite Herr, app_nil_r. reflexivity.
Qed.

(** X7.  A negative [buf_len] is no bound at all: as a [size_t] it is larger
    than the length of any line that an [int] can count, so, with no
    confirmation asked for, every line that is not empty is accepted and
    copied, and the value returned exceeds [buf_len]. *)
Theorem callback_negative_length_is_no_bound (buf : list Ascii.ascii)
    (buf_len : Z) (c : Samples.console) :
  - 2 ^ 31 <= buf_len < 0 ->
  Samples.first_line c <> "" ->
  Z.of_nat (String.length (Samples.first_line c)) < 2 ^ 31 ->
  (Samples.pem_passphrase_callback buf buf_len 0 c).1
  = (Z.of_nat (String.length (Samples.first_line c)),
     Samples.copy_to (Samples.first_line c) buf)
  /\ (length buf <= length (Samples.copy_to (Samples.first_line c) buf))%nat.
Proof.
  intros Hb Hne Hlen. rewrite callback_cases. unfold Samples.rejects.
  rewrite int_to_size_t_negative by exact Hb.
  rewrite bool_decide_eq_false_2 by exact Hne.
  destruct (Z.ltb_spec (buf_len + 2 ^ 64)
              (Z.of_nat (String.length (Samples.first_line c)))); [lia |].
  cbn [orb negb andb Z.eqb]. rewrite size_t_to_int_small by lia.
  split; [reflexivity |].
  unfold Samples.copy_to.
  rewrite length_app, length_drop, length_list_ascii_of_string. lia.
Qed.

Lemma callback_negative_length_is_no_bound_witness :
  (Samples.pem_passphrase_callback [] (-1) 0
     (Samples.typed ["overflow"])).1
  = (8, String.list_ascii_of_string "overflow").
Proof.
  exact (proj1 (callback_negative_length_is_no_bound [] (-1)
                  (Samples.typed ["overflow"]) ltac:(lia) ltac:(discriminate)
                  ltac:(simpl; lia))).
Defined.

(** ** The main functions *)

Lemma ending_of_log {S E : Type} (a : Samples.action)
    (r : Samples.srun_result S E) :
  Samples.ending_of (Samples.log a r) = Samples.ending_of r.
Proof. reflexivity. Qed.

Lemma actions_of_log {S E : Type} (a : Samples.action)
    (r : Samples.srun_result S E) :
  Samples.actions_of (Samples.log a r) = a :: Samples.actions_of r.
Proof. reflexivity. Qed.

Lemma locals_of_log {S E : Type} (a : Samples.action)
    (r : Samples.srun_result S E) :
  Samples.locals_of (Samples.log a r) = Samples.locals_of r.
Proof. reflexivity. Qed.

(** One step of a run, in the equation [H] that says what the run is: the
    program is unfolded up to the next call or test, the call is answered,
    and the answer is taken apart where the program looks at it. *)
Ltac srun_unfold H :=
  unfold Samples.explain in H;
  cbn [Samples.srun Samples.sbind Samples.try_catch mbind mret
       Samples.sprog_bind Samples.sprog_ret Samples.perform Samples.lib
       Samples.load Samples.store Samples.say Samples.release Samples.report
       Samples.explain id default fst snd negb] in H.

Ltac srun_step env H :=
  first
    [ match type of H with
      | context [decide ?P] =>
          let d := fresh "d" in
          destruct (decide P) as [d | d];
          [ try discriminate d | try (exfalso; apply d; reflexivity) ]
      end
    | match type of H with
      | context [(?x =? 0)] => destruct (x =? 0) eqn:?
      end
    | match type of H with
      | context [match ?x with _ => _ end] => is_var x; destruct x
      end
    | match type of H with
      | context [env ?c ?e] =>
          let a := fresh "a" in
          let e' := fresh "e" in
          destruct (env c e) as [a e']; simpl in a;
          try (destruct a as [? |])
      end ];
  srun_unfold H.

Ltac srun_all env H := srun_unfold H; repeat srun_step env H.

Ltac srun_done :=
  rewrite ?ending_of_log, ?actions_of_log; cbn [Samples.ending_of Samples.actions_of].

Ltac use_tests :=
  repeat match goal with
         | H : (?x =? 0) = _ |- context [(?x =? 0)] => rewrite H
         end.

(** What a finished run shows, computed in stages so that no test is looked
    at before its outcome is known. *)
Ltac read_trace :=
  cbn [Samples.reported omap list_omap];
  use_tests;
  cbn [forallb Samples.went_well Samples.closed Samples.opened Samples.lines_on
       Samples.same_stream Samples.uses_parameters Samples.hands_over_null
       Samples.closes_null Samples.fopen_failed existsb orb
       omap list_omap negb andb app];
  use_tests;
  cbn [andb orb app].

Lemma pkey_main_runs {E : Type} (env : Samples.environment E)
    (s : Samples.shared_ptr * Samples.shared_ptr) (e : E) :
  let r := Samples.srun env Samples.pkey_main s e in
  let t := Samples.actions_of r in
  match Samples.ending_of r with
  | Samples.Exit status =>
      status = (if forallb Samples.went_well t
                then Samples.EXIT_SUCCESS else Samples.EXIT_FAILURE)
      /\ Samples.closed t ≡ₚ Samples.opened t
  | Samples.Terminate ex =>
      ex = Samples.other_exception /\ forallb Samples.went_well t = false
  end
  /\ forallb (fun a => negb (Samples.hands_over_null a)) t = true
  /\ existsb Samples.closes_null t = existsb Samples.fopen_failed t.
Proof.
  intros r t. remember (Samples.srun env Samples.pkey_main s e) as r0 eqn:Hr.
  subst t r. unfold Samples.pkey_main, Samples.pkey_body in Hr.
  srun_all env Hr; subst r0; srun_done; read_trace.
  all: repeat split; first [reflexivity | apply perm_swap].
Qed.

Lemma dh_main_runs {E : Type} (env : Samples.environment E)
    (bits : Samples.dh_check_bits) (s : Samples.shared_ptr) (e : E) :
  let r := Samples.srun env (Samples.dh_main bits) s e in
  let t := Samples.actions_of r in
  match Samples.ending_of r with
  | Samples.Exit status =>
      status = (if forallb Samples.went_well t
                then Samples.EXIT_SUCCESS else Samples.EXIT_FAILURE)
      /\ Samples.closed t ≡ₚ Samples.opened t
  | Samples.Terminate ex =>
      ex = Samples.other_exception /\ forallb Samples.went_well t = false
  end
  /\ match Samples.reported t with
     | [] => True
     | [codes] =>
         if codes =? 0 then True
         else Samples.ending_of r = Samples.Exit Samples.EXIT_FAILURE
              /\ forallb (fun a => negb (Samples.uses_parameters a)) t = true
              /\ Samples.lines_on Samples.cerr t
                 = ("Generation failed." +:+ Samples.endl)
                   :: (if Z.land codes (Samples.DH_CHECK_P_NOT_SAFE_PRIME bits) =? 0
                       then [] else ["p is not a safe prime." +:+ Samples.endl])
                   ++ (if Z.land codes (Samples.DH_NOT_SUITABLE_GENERATOR bits) =? 0
                       then [] else ["g is not a suitable generator." +:+ Samples.endl])
                   ++ (if Z.land codes (Samples.DH_UNABLE_TO_CHECK_GENERATOR bits) =? 0
                       then []
                       else ["g is not a correct generator. Must be either 2 or 5."
                             +:+ Samples.endl])
     | _ => False
     end
  /\ forallb (fun a => negb (Samples.hands_over_null a)) t = true
  /\ existsb Samples.closes_null t = existsb Samples.fopen_failed t.
Proof.
  intros r t. remember (Samples.srun env (Samples.dh_main bits) s e) as r0 eqn:Hr.
  subst t r. unfold Samples.dh_main, Samples.dh_body in Hr.
  srun_all env Hr; subst r0; srun_done; read_trace.
  all: repeat split; first [reflexivity | exact I].
Qed.

(** X8.  [main] of [pkey.cpp] hands a null pointer to [fclose], which is
    undefined behaviour, exactly in the runs in which some [fopen] gives
    one.  In every other run it returns [EXIT_SUCCESS] when no call into the
    library threw and [EXIT_FAILURE] when one threw a [std::exception]; what
    [is_dsa] answers has no part in it; and the one way not to return is an
    exception that is no [std::exception], which some call threw. *)
Theorem pkey_main_exit_status {E : Type} (env : Samples.environment E)
    (s : Samples.shared_ptr * Samples.shared_ptr) (e : E) :
  let r := Samples.srun env Samples.pkey_main s e in
  let t := Samples.actions_of r in
  if existsb Samples.fopen_failed t then existsb Samples.closes_null t = true
  else
    existsb Samples.closes_null t = false
    /\ match Samples.ending_of r with
       | Samples.Exit status =>
           status = (if forallb Samples.went_well t
                     then Samples.EXIT_SUCCESS else Samples.EXIT_FAILURE)
       | Samples.Terminate ex =>
           ex = Samples.other_exception /\ forallb Samples.went_well t = false
       end.
Proof.
  intros r t. destruct (pkey_main_runs env s e) as (H & _ & Hnull).
  fold r t in H, Hnull. rewrite <- Hnull.
  destruct (existsb Samples.closes_null t); [reflexivity |].
  split; [reflexivity |]. destruct (Samples.ending_of r); tauto.
Qed.

(** A run in which the file cannot be opened for reading back: the message
    is written and the null pointer reaches [fclose]. *)
Example pkey_main_null_stream_reaches_fclose :
  let t := Samples.actions_of
             (Samples.srun
                (Samples.scripted Samples.reading_fails Samples.other_exception 0 true)
                Samples.pkey_main (None, None) 1%positive) in
  existsb Samples.fopen_failed t = true
  /\ Samples.closed t = [Some 2%positive; Some 1%positive; None]
  /\ Samples.lines_on Samples.cerr t
     = [Samples.unable_to_open Samples.private_key_filename "reading" +:+ Samples.endl].
Proof. vm_compute. repeat split. Qed.

(** X9.  When [main] of [pkey.cpp] returns, [fclose] was called once for
    each result of [fopen], a null result included; and no call into the
    library is ever handed a null stream. *)
Theorem pkey_main_streams {E : Type} (env : Samples.environment E)
    (s : Samples.shared_ptr * Samples.shared_ptr) (e : E) :
  let r := Samples.srun env Samples.pkey_main s e in
  let t := Samples.actions_of r in
  match Samples.ending_of r with
  | Samples.Exit _ => Samples.closed t ≡ₚ Samples.opened t
  | Samples.Terminate _ => True
  end
  /\ forallb (fun a => negb (Samples.hands_over_null a)) t = true.
Proof.
  intros r t. destruct (pkey_main_runs env s e) as (H & Hnull & _).
  fold r t in H, Hnull. split; [|exact Hnull].
  destruct (Samples.ending_of r); tauto.
Qed.

(** X10.  [main] of [dh.cpp] hands a null pointer to [fclose], which is
    undefined behaviour, exactly in the runs in which some [fopen] gives
    one.  In every other run it returns [EXIT_SUCCESS] when no call into the
    library threw and [dh.check] reported no code, and [EXIT_FAILURE] when a
    call threw a [std::exception] or [dh.check] reported a code; whether the
    two computed keys agree has no part in it; and the one way not to return
    is an exception that is no [std::exception], which some call threw. *)
Theorem dh_main_exit_status {E : Type} (env : Samples.environment E)
    (bits : Samples.dh_check_bits) (s : Samples.shared_ptr) (e : E) :
  let r := Samples.srun env (Samples.dh_main bits) s e in
  let t := Samples.actions_of r in
  if existsb Samples.fopen_failed t then existsb Samples.closes_null t = true
  else
    existsb Samples.closes_null t = false
    /\ match Samples.ending_of r with
       | Samples.Exit status =>
           status = (if forallb Samples.went_well t
                     then Samples.EXIT_SUCCESS else Samples.EXIT_FAILURE)
       | Samples.Terminate ex =>
           ex = Samples.other_exception /\ forallb Samples.went_well t = false
       end.
Proof.
  intros r t. destruct (dh_main_runs env bits s e) as (H & _ & _ & Hnull).
  fold r t in H, Hnull. rewrite <- Hnull.
  destruct (existsb Samples.closes_null t); [reflexivity |].
  split; [reflexivity |]. destruct (Samples.ending_of r); tauto.
Qed.

(** X11.  When [main] of [dh.cpp] returns, [fclose] was called once for
    each result of [fopen], a null result included; and no call into the
    library is ever handed a null stream. *)
Theorem dh_main_streams {E : Type} (env : Samples.environment E)
    (bits : Samples.dh_check_bits) (s : Samples.shared_ptr) (e : E) :
  let r := Samples.srun env (Samples.dh_main bits) s e in
  let t := Samples.actions_of r in
  match Samples.ending_of r with
  | Samples.Exit _ => Samples.closed t ≡ₚ Samples.opened t
  | Samples.Terminate _ => True
  end
  /\ forallb (fun a => negb (Samples.hands_over_null a)) t = true.
Proof.
  intros r t. destruct (dh_main_runs env bits s e) as (H & _ & Hnull & _).
  fold r t in H, Hnull. split; [|exact Hnull].
  destruct (Samples.ending_of r); tauto.
Qed.

(** X12.  When [dh.check] reports a code other than zero, [main] of
    [dh.cpp] returns [EXIT_FAILURE] without writing the parameters or using
    them in any other way, and [std::cerr] holds [Generation failed.]
    followed by one line for each of the three bits it knows, in the order
    of the source, and nothing else. *)
Theorem dh_main_failed_check {E : Type} (env : Samples.environment E)
    (bits : Samples.dh_check_bits) (s : Samples.shared_ptr) (e : E) (codes : Z) :
  In codes (Samples.reported
              (Samples.actions_of (Samples.srun env (Samples.dh_main bits) s e))) ->
  codes <> 0 ->
  Samples.ending_of (Samples.srun env (Samples.dh_main bits) s e)
    = Samples.Exit Samples.EXIT_FAILURE
  /\ forallb (fun a => negb (Samples.uses_parameters a))
       (Samples.actions_of (Samples.srun env (Samples.dh_main bits) s e)) = true
  /\ Samples.lines_on Samples.cerr
       (Samples.actions_of (Samples.srun env (Samples.dh_main bits) s e))
     = ("Generation failed." +:+ Samples.endl)
       :: (if Z.land codes (Samples.DH_CHECK_P_NOT_SAFE_PRIME bits) =? 0
           then [] else ["p is not a safe prime." +:+ Samples.endl])
       ++ (if Z.land codes (Samples.DH_NOT_SUITABLE_GENERATOR bits) =? 0
           then [] else ["g is not a suitable generator." +:+ Samples.endl])
       ++ (if Z.land codes (Samples.DH_UNABLE_TO_CHECK_GENERATOR bits) =? 0
           then []
           else ["g is not a correct generator. Must be either 2 or 5."
                 +:+ Samples.endl]).
Proof.
  intros Hin Hcodes. destruct (dh_main_runs env bits s e) as (_ & H & _ & _).
  cbv zeta in H.
  destruct (Samples.reported _) as [|c [|c' l]]; [destruct Hin | | destruct H].
  destruct Hin as [-> | []].
  destruct (Z.eqb_spec codes 0) as [|_]; [contradiction | exact H].
Qed.

Lemma dh_main_failed_check_witness :
  Samples.ending_of
    (Samples.srun (Samples.scripted Samples.nothing_fails Samples.other_exception 9 true)
       (Samples.dh_main Samples.openssl_bits) None 1%positive)
  = Samples.Exit Samples.EXIT_FAILURE
  /\ Samples.lines_on Samples.cerr
       (Samples.actions_of
          (Samples.srun (Samples.scripted Samples.nothing_fails Samples.other_exception 9 true)
             (Samples.dh_main Samples.openssl_bits) None 1%positive))
     = ["Generation failed." +:+ Samples.endl;
        "g is not a suitable generator." +:+ Samples.endl].
Proof.
  destruct (dh_main_failed_check
              (Samples.scripted Samples.nothing_fails Samples.other_exception 9 true)
              Samples.openssl_bits None 1%positive 9)
    as (Hend & _ & Hlines).
  - vm_compute. left. reflexivity.
  - discriminate.
  - split; [exact Hend | exact Hlines].
Defined.

(** ** Further properties of the header's methods *)

Lemma size_t_to_int_range (n : Z) : - 2 ^ 31 <= size_t_to_int n < 2 ^ 31.
Proof.
  unfold size_t_to_int.
  pose proof (Z.mod_pos_bound (n + 2 ^ 31) (2 ^ 32) ltac:(lia)). lia.
Qed.

Lemma size_t_to_int_congruent (n : Z) : (size_t_to_int n - n) mod 2 ^ 32 = 0.
Proof.
  unfold size_t_to_int.
  pose proof (Z.div_mod (n + 2 ^ 31) (2 ^ 32) ltac:(lia)) as H.
  replace ((n + 2 ^ 31) mod 2 ^ 32 - 2 ^ 31 - n)
    with (- ((n + 2 ^ 31) / 2 ^ 32) * 2 ^ 32) by lia.
  apply Z.mod_mul. lia.
Qed.

Lemma size_t_to_int_periodic (n k : Z) :
  size_t_to_int (n + k * 2 ^ 32) = size_t_to_int n.
Proof.
  unfold size_t_to_int.
  replace (n + k * 2 ^ 32 + 2 ^ 31) with (n + 2 ^ 31 + k * 2 ^ 32) by lia.
  rewrite Z.mod_add by lia. reflexivity.
Qed.

(** X1.  [set_key_length] narrows its [size_t] argument to [int] before the
    native library sees it: the first native call carries the one value of
    the [int] range congruent to [len] modulo [2^32], so two lengths that
    differ by a multiple of [2^32] give the same run, whatever the native
    library does. *)
Theorem set_key_length_narrows_to_int {W : Type} (native : library W)
    (this : cipher_context) (len k : Z) (w : W) :
  run native (set_key_length this (len + k * 2 ^ 32)) w
    = run native (set_key_length this len) w
  /\ exists n : Z,
       - 2 ^ 31 <= n < 2 ^ 31
       /\ (n - len) mod 2 ^ 32 = 0
       /\ head (trace_of (run native (set_key_length this len) w))
          = Some (EVP_CIPHER_CTX_set_key_length (m_ctx this) n).
Proof.
  split.
  - unfold set_key_length. rewrite size_t_to_int_periodic. reflexivity.
  - exists (size_t_to_int len).
    split; [apply size_t_to_int_range|].
    split; [apply size_t_to_int_congruent|].
    rewrite run_set_key_length. cbv zeta.
    destruct (int_to_bool _); reflexivity.
Qed.

(** X2.  [key_length] makes one native call and widens the [int] it
    answers to [size_t]: a length that is not negative comes back as it is,
    a negative answer comes back as a length of at least [2^64 - 2^31]. *)
Theorem key_length_widens_to_size_t {W : Type} (native : library W)
    (this : cipher_context) (w : W) (n : Z) :
  (native (EVP_CIPHER_CTX_key_length (m_ctx this)) w).1 = n ->
  - 2 ^ 31 <= n < 2 ^ 31 ->
  run native (key_length this) w
  = RunResult (Returned (if n <? 0 then n + 2 ^ 64 else n))
      (native (EVP_CIPHER_CTX_key_length (m_ctx this)) w).2
      [EVP_CIPHER_CTX_key_length (m_ctx this)].
Proof.
  intros Hn Hrange. unfold key_length, call. cbn.
  destruct (native _ w) as [a w'] eqn:Hcall. cbn in Hn |- *. subst a.
  f_equal. f_equal. unfold int_to_size_t.
  destruct (Z.ltb_spec n 0).
  - symmetry. apply Z.mod_unique with (q := -1); lia.
  - apply Z.mod_small. lia.
Qed.

Lemma key_length_widens_to_size_t_witness :
  result_of (run (Native.native Native.toy_registry) (key_length Native.ctx_a)
               Native.world_after_padding_block)
  = Returned 2.
Proof.
  rewrite (key_length_widens_to_size_t (Native.native Native.toy_registry)
             Native.ctx_a Native.world_after_padding_block 2
             ltac:(reflexivity) ltac:(lia)).
  reflexivity.
Defined.

(** X3.  Two contexts in nested scopes: both are initialised before the
    inner body runs, the inner one is cleaned up before the outer one, and
    the outcome is the body's, whether it returns or raises. *)
Theorem nested_scopes_clean_up_in_reverse {W R : Type} (native : library W)
    (outer inner : cipher_context) (body : prog R) (w : W) :
  let w1 := (native (EVP_CIPHER_CTX_init (m_ctx outer)) w).2 in
  let w2 := (native (EVP_CIPHER_CTX_init (m_ctx inner)) w1).2 in
  let r := run native (scoped outer (scoped inner body)) w in
  result_of r = result_of (run native body w2)
  /\ trace_of r
     = [EVP_CIPHER_CTX_init (m_ctx outer); EVP_CIPHER_CTX_init (m_ctx inner)]
       ++ trace_of (run native body w2)
       ++ [EVP_CIPHER_CTX_cleanup (m_ctx inner);
           EVP_CIPHER_CTX_cleanup (m_ctx outer)].
Proof.
  intros w1 w2 r.
  destruct (run_scoped native outer (scoped inner body) w) as [Hres Htrace].
  destruct (run_scoped native inner body w1) as [Hres' Htrace'].
  fold w1 in Hres, Htrace. fold w2 in Hres', Htrace'. subst r.
  rewrite Hres, Hres', Htrace, Htrace'. split; [reflexivity|].
  cbn. rewrite <- app_assoc. reflexivity.
Qed.
